(** * xf-tools: the MIDI to lead-sheet converter (converter.py)

    A shallow embedding of the chord decoder, the chord-figure normalizer,
    the text chord heuristic and the three stream scans of [converter.py],
    followed by the properties of the written specification that were
    checked against them.

    Conventions of the embedding.
    - Python integers are [Z]; [>>] and [&] are [Z.shiftr] and [Z.land],
      which agree with Python on negative numbers as well.
    - Python [str] values are [string]; a character is a code point below
      256, which is what mido yields for meta text (it decodes Latin-1) and
      what every literal of the program is made of.
    - [dict] values are stdpp finite maps ([gmap]).
    - [int / int] (true division) is the exact quotient, a canonical
      rational [Qc]; the rounding of the quotient to a float is not
      modelled.  Division by zero raises.
    - A call that may raise returns a [result]; [Raised] stands for an
      exception leaving the function.
    - Printing and the debug log are output only and are left out. *)

From Stdlib Require Import Ascii String QArith Qcanon.
From stdpp Require Import base numbers option list gmap strings sorting.

Open Scope string_scope.
Open Scope list_scope.
Open Scope Z_scope.

(** ** Outcomes of calls that may raise *)

Inductive result (A : Type) : Type :=
| Returned (a : A)
| Raised.
Arguments Returned {A} a.
Arguments Raised {A}.

Definition rbind {A B} (r : result A) (f : A -> result B) : result B :=
  match r with
  | Returned a => f a
  | Raised => Raised
  end.

Notation "x <~ r ;; k" := (rbind r (fun x => k))
  (at level 100, r at next level, right associativity).

(** ** Python primitives *)

Module Py.

Definition code (c : ascii) : N := Ascii.N_of_ascii c.

Definition in_range (lo hi n : N) : bool := ((lo <=? n) && (n <=? hi))%N.

Definition between (lo hi : N) (c : ascii) : bool := in_range lo hi (code c).

(** [\w] of a [str] pattern: alphanumeric code points and the underscore,
    here for the code points below 256 (digits, letters and the
    underscore of ASCII; in Latin-1 the letters, the superscript digits
    and the fractions). *)
Definition is_word (c : ascii) : bool :=
  let n := code c in
  if (n <? 128)%N then
    if in_range 97 122 n then true
    else if in_range 65 90 n then true
    else if in_range 48 57 n then true
    else (n =? 95)%N
  else
    (n =? 170)%N || (n =? 178)%N || (n =? 179)%N
    || (n =? 181)%N || (n =? 185)%N || (n =? 186)%N
    || in_range 188 190 n || in_range 192 214 n || in_range 216 246 n
    || in_range 248 255 n.

(** The characters removed by [str.strip()] with no argument. *)
Definition is_space (c : ascii) : bool :=
  let n := code c in
  in_range 9 13 n || in_range 28 32 n || (n =? 133)%N || (n =? 160)%N.

Fixpoint lstrip (s : string) : string :=
  match s with
  | String c s' => if is_space c then lstrip s' else s
  | EmptyString => EmptyString
  end.

Fixpoint rstrip (s : string) : string :=
  match s with
  | String c s' =>
      let r := rstrip s' in
      if is_space c && String.eqb r "" then "" else String c r
  | EmptyString => EmptyString
  end.

Definition strip (s : string) : string := rstrip (lstrip s).

(** [s.replace(old, new)] for a non-empty [old] (every call of the
    program passes a non-empty literal): the occurrences of [old] are
    found from the left and do not overlap.  [skip] counts the
    characters of the current occurrence that are still to be passed
    over. *)
Fixpoint replace_from (old new : string) (skip : nat) (s : string) : string :=
  match s with
  | EmptyString => EmptyString
  | String c s' =>
      match skip with
      | S k => replace_from old new k s'
      | O =>
          if String.prefix old s
          then new +:+ replace_from old new (String.length old - 1) s'
          else String c (replace_from old new 0 s')
      end
  end.

Definition replace (old new s : string) : string := replace_from old new 0 s.

(** ["'" * n]: a string repeated; nothing for [n <= 0]. *)
Fixpoint repeat_nat (s : string) (n : nat) : string :=
  match n with
  | O => ""
  | S k => s +:+ repeat_nat s k
  end.

Definition str_mul (s : string) (n : Z) : string := repeat_nat s (Z.to_nat n).

(** [a / b] on integers. *)
Definition true_div (a b : Z) : result Qc :=
  if b =? 0 then Raised else Returned (Qc_of_Z a / Qc_of_Z b)%Qc.

End Py.

(** ** A backtracking matcher for the regular expressions of the program

    The two patterns of [converter.py] use character classes, literals,
    ordered alternation, greedy [?], greedy [*] over a single character
    class and the word boundary [\b].  The matcher explores them in the
    order of Python's [re]: the first alternative first, the longest
    repetition first, and the continuation [k] is what remains of the
    pattern; [prev] is the character before the current position. *)

Module Re.

Inductive regex : Type :=
| Empty
| Class (p : ascii -> bool)
| Lit (l : string)
| Cat (r1 r2 : regex)
| Alt (r1 r2 : regex)
| Opt (r : regex)
| StarClass (p : ascii -> bool)
| WordBoundary.

Definition word_at (o : option ascii) : bool :=
  match o with
  | Some c => Py.is_word c
  | None => false
  end.

Definition next_char (s : string) : option ascii :=
  match s with
  | String c _ => Some c
  | EmptyString => None
  end.

Definition at_boundary (prev : option ascii) (s : string) : bool :=
  xorb (word_at prev) (word_at (next_char s)).

Fixpoint lit_go (l : string) (prev : option ascii) (s : string)
  : option (option ascii * string) :=
  match l with
  | EmptyString => Some (prev, s)
  | String a l' =>
      match s with
      | String c s' => if Ascii.eqb a c then lit_go l' (Some c) s' else None
      | EmptyString => None
      end
  end.

Fixpoint star_go {A} (p : ascii -> bool)
    (k : option ascii -> string -> option A)
    (prev : option ascii) (s : string) : option A :=
  match s with
  | String c s' =>
      if p c then
        match star_go p k (Some c) s' with
        | Some x => Some x
        | None => k prev s
        end
      else k prev s
  | EmptyString => k prev s
  end.

Fixpoint rmatch {A} (r : regex) (k : option ascii -> string -> option A)
    (prev : option ascii) (s : string) : option A :=
  match r with
  | Empty => k prev s
  | Class p =>
      match s with
      | String c s' => if p c then k (Some c) s' else None
      | EmptyString => None
      end
  | Lit l =>
      match lit_go l prev s with
      | Some (prev', s') => k prev' s'
      | None => None
      end
  | Cat r1 r2 => rmatch r1 (rmatch r2 k) prev s
  | Alt r1 r2 =>
      match rmatch r1 k prev s with
      | Some x => Some x
      | None => rmatch r2 k prev s
      end
  | Opt r1 =>
      match rmatch r1 k prev s with
      | Some x => Some x
      | None => k prev s
      end
  | StarClass p => star_go p k prev s
  | WordBoundary => if at_boundary prev s then k prev s else None
  end.

Definition cat (rs : list regex) : regex := foldr Cat Empty rs.

(** The text consumed between two positions of one string, the second
    being a suffix of the first. *)
Definition consumed (from to : string) : string :=
  substring 0 (String.length from - String.length to) from.

(** [re.sub(r, repl, s)] for a pattern that never matches the empty
    string; [repl] receives the matched text. *)
Fixpoint sub_from (r : regex) (repl : string -> string) (skip : nat)
    (prev : option ascii) (s : string) : string :=
  match s with
  | EmptyString => EmptyString
  | String c s' =>
      match skip with
      | S k => sub_from r repl k (Some c) s'
      | O =>
          match rmatch r (fun _ rest => Some rest) prev s with
          | Some rest =>
              repl (consumed s rest)
                +:+ sub_from r repl (String.length (consumed s rest) - 1) (Some c) s'
          | None => String c (sub_from r repl 0 (Some c) s')
          end
      end
  end.

Definition sub (r : regex) (repl : string -> string) (s : string) : string :=
  sub_from r repl 0 None s.

End Re.

(** ** Constants *)

Definition XF_ROOT_DISP : gmap Z string :=
  list_to_map [(0, "bbb"); (1, "bb"); (2, "b"); (3, ""); (4, "#"); (5, "##"); (6, "###")].

Definition XF_ROOT_NOTE : gmap Z string :=
  list_to_map [(1, "C"); (2, "D"); (3, "E"); (4, "F"); (5, "G"); (6, "A"); (7, "B")].

Definition XF_CHORD_TYPES_items : list (Z * string) :=
  [ (0x00, ""); (0x01, "6"); (0x02, "maj7"); (0x03, "maj7(#11)");
    (0x04, "add9"); (0x05, "maj9"); (0x06, "6(9)"); (0x07, "aug");
    (0x08, "m"); (0x09, "m6"); (0x0A, "m7"); (0x0B, "m7b5");
    (0x0C, "m(add9)"); (0x0D, "m9"); (0x0E, "m11"); (0x0F, "m(maj7)");
    (0x10, "m(maj7,9)"); (0x11, "dim"); (0x12, "dim7"); (0x13, "7");
    (0x14, "7sus4"); (0x15, "7b5"); (0x16, "7(9)"); (0x17, "7(#11)");
    (0x18, "7(13)"); (0x19, "7(b9)"); (0x1A, "7(b13)"); (0x1B, "7(#9)");
    (0x1C, "maj7aug"); (0x1D, "7aug"); (0x1E, "1+8"); (0x1F, "1+5");
    (0x20, "sus4"); (0x21, "1+2+5"); (0x22, "N.C.") ].

Definition XF_CHORD_TYPES : gmap Z string := list_to_map XF_CHORD_TYPES_items.

Definition XF_REHE_ID : Z := 0x02.

Definition XF_REHE_BASE : gmap Z string :=
  list_to_map
    [ (0, "Intro"); (1, "Ending"); (2, "Fill-in");
      (3, "A"); (4, "B"); (5, "C"); (6, "D"); (7, "E"); (8, "F"); (9, "G");
      (10, "H"); (11, "I"); (12, "J"); (13, "K"); (14, "L"); (15, "M") ].

Definition XF_META_HEADER : list Z := [0x43; 0x7B].
Definition XF_CHORD_ID : Z := 0x01.

(** ** The chord-figure normalizer *)

Definition is_A_to_G (c : ascii) : bool := Py.between 65 71 c.

Definition enharmonic_map : gmap string string :=
  list_to_map
    [ ("E#", "F"); ("B#", "C"); ("Fb", "E"); ("Cb", "B");
      ("Dbb", "C"); ("Ebb", "D"); ("Gbb", "F"); ("Abb", "G"); ("Bbb", "A") ].

Definition simplify_enharmonics (note_name : string) : string :=
  default note_name (enharmonic_map !! note_name).

(** [\b[A-G](?:bb|##|b|#)\b] *)
Definition note_name_regex : Re.regex :=
  Re.cat [ Re.WordBoundary; Re.Class is_A_to_G;
           Re.Alt (Re.Lit "bb") (Re.Alt (Re.Lit "##") (Re.Alt (Re.Lit "b") (Re.Lit "#")));
           Re.WordBoundary ].

Definition _normalize_chord_figure (figure : string) : string :=
  if String.eqb figure "" || String.eqb figure "N.C." then figure
  else
    let figure := Re.sub note_name_regex simplify_enharmonics figure in
    let figure := Py.replace "add9" "add2" figure in
    let figure := Py.replace "m7(11)" "m11" figure in
    let figure := Py.replace "m(maj7,9)" "m(maj9)" figure in
    Py.replace "b" "-" (Py.replace "bb" "--" figure).

(** ** The binary chord decoder *)

Definition parse_note_byte (note_byte : Z) : option string :=
  if note_byte =? 127 then None
  else
    let fff := Z.land (Z.shiftr note_byte 4) 7 in
    let nnnn := Z.land note_byte 0x0F in
    match XF_ROOT_DISP !! fff, XF_ROOT_NOTE !! nnnn with
    | Some disp_str, Some note_str => Some (note_str +:+ disp_str)
    | _, _ => None
    end.

Definition _parse_xf_chord_sysex (chord_bytes : list Z) : option string :=
  if negb ((2 <=? length chord_bytes)%nat && (length chord_bytes <=? 4)%nat)
  then None
  else
    match chord_bytes with
    | cr :: ct :: rest =>
        let bn := match rest with b :: _ => b | [] => 127 end in
        match XF_CHORD_TYPES !! ct with
        | None => None
        | Some type_str =>
            if String.eqb type_str "N.C." then Some "N.C."
            else
              match parse_note_byte cr with
              | None => None
              | Some root_str =>
                  let chord_figure := root_str +:+ type_str in
                  match parse_note_byte bn with
                  | Some bass_str =>
                      if negb (String.eqb root_str bass_str)
                      then Some (chord_figure +:+ "/" +:+ bass_str)
                      else Some chord_figure
                  | None => Some chord_figure
                  end
              end
        end
    | _ => None
    end.

(** ** The text chord heuristic *)

Definition is_flat_or_sharp (c : ascii) : bool :=
  Ascii.eqb c "b" || Ascii.eqb c "#".
Definition is_dash_or_underscore (c : ascii) : bool :=
  Ascii.eqb c "-" || Ascii.eqb c "_".
Definition is_digit (c : ascii) : bool := Py.between 48 57 c.
Definition not_A_to_G (c : ascii) : bool := negb (is_A_to_G c).
(** [.] without the DOTALL flag: any character but the line feed. *)
Definition is_dot (c : ascii) : bool := negb (Py.code c =? 10)%N.

(** Group 1 of the pattern:
    [[A-G][b#]?(?:maj|min|m|M|dim|aug|sus|add|[-_])?[0-9]*(?:\(.*\))?(?:/[A-G][b#]?)?] *)
Definition chord_text_group : Re.regex :=
  Re.cat
    [ Re.Class is_A_to_G;
      Re.Opt (Re.Class is_flat_or_sharp);
      Re.Opt
        (Re.Alt (Re.Lit "maj") (Re.Alt (Re.Lit "min") (Re.Alt (Re.Lit "m")
        (Re.Alt (Re.Lit "M") (Re.Alt (Re.Lit "dim") (Re.Alt (Re.Lit "aug")
        (Re.Alt (Re.Lit "sus") (Re.Alt (Re.Lit "add")
        (Re.Class is_dash_or_underscore)))))))));
      Re.StarClass is_digit;
      Re.Opt (Re.cat [Re.Lit "("; Re.StarClass is_dot; Re.Lit ")"]);
      Re.Opt (Re.cat [Re.Lit "/"; Re.Class is_A_to_G; Re.Opt (Re.Class is_flat_or_sharp)]) ].

(** One attempt of [[^A-G]*(group 1)\b] at a given position; the result is
    the text of group 1. *)
Definition chord_text_match_at (prev : option ascii) (s : string) : option string :=
  Re.rmatch (Re.StarClass not_A_to_G)
    (fun p1 s1 =>
       Re.rmatch chord_text_group
         (fun p2 s2 =>
            Re.rmatch Re.WordBoundary
              (fun _ _ => Some (Re.consumed s1 s2)) p2 s2)
         p1 s1)
    prev s.

(** [re.search]: the attempts are made at the successive positions of the
    text, the end included, and the first that succeeds is the match. *)
Fixpoint chord_text_search_from (prev : option ascii) (s : string) : option string :=
  match chord_text_match_at prev s with
  | Some g => Some g
  | None =>
      match s with
      | String c s' => chord_text_search_from (Some c) s'
      | EmptyString => None
      end
  end.

Definition chord_text_search (text : string) : option string :=
  chord_text_search_from None text.

(** ** MIDI messages, as mido hands them over

    A message carries its delta time in ticks.  What the scans look at is
    the kind of the message: the three kinds of meta message they
    distinguish, the two note messages, and whether another message has a
    channel. *)

Inductive text_type : Type := text | lyrics | marker.

Inductive msg_kind : Type :=
| sequencer_specific (data : list Z)
| text_meta (type : text_type) (txt : string)
| other_meta
| note_on (channel note velocity : Z)
| note_off (channel note velocity : Z)
| other_channel_msg (channel : Z)
| system_msg.

Record message : Type := Msg { time : Z; kind : msg_kind }.

Definition is_meta (m : message) : bool :=
  match kind m with
  | sequencer_specific _ | text_meta _ _ | other_meta => true
  | _ => false
  end.

(** An opened file: its resolution, and the messages of all its tracks as
    [mido.merge_tracks] orders them. *)
Record MidiFile : Type := { ticks_per_beat : Z; merge_tracks : list message }.

(** [mido.MidiFile(path)] for every path: [None] where the constructor
    raises (the file is missing or is not a MIDI file). *)
Definition file_system : Type := string -> option MidiFile.

(** [len(msg.data) > 2 and msg.data[:2] == XF_META_HEADER], giving
    [data[2]] and [data[3:]]. *)
Definition xf_event (data : list Z) : option (Z * list Z) :=
  if (2 <? length data)%nat && bool_decide (take 2 data = XF_META_HEADER)
  then
    match data !! 2%nat with
    | Some event_id => Some (event_id, drop 3 data)
    | None => None
    end
  else None.

(** ** The chord scan *)

Section ChordScan.

(** music21's chord symbols are external: [harmony_ChordSymbol figure] is
    [None] when the constructor raises, [harmony_NoChord] is the object
    for "no chord", [truthy] is the truth value of an object in an [if]. *)
Context {chord_symbol : Type}.
Variable harmony_ChordSymbol : string -> option chord_symbol.
Variable harmony_NoChord : chord_symbol.
Variable truthy : chord_symbol -> bool.

Record placed_chord : Type := { cs : chord_symbol; cs_offset : Qc }.

(** The chord text found in one message, [current_chord_text]. *)
Definition current_chord_text (msg : message) : option string :=
  match kind msg with
  | sequencer_specific data =>
      match xf_event data with
      | Some (event_id, payload) =>
          if event_id =? XF_CHORD_ID then
            let chord_bytes := filter (fun b => b ≠ 0x7F) payload in
            match chord_bytes with
            | [] => None
            | _ => _parse_xf_chord_sysex chord_bytes
            end
          else None
      | None => None
      end
  | text_meta _ txt =>
      let txt := Py.strip txt in
      if String.eqb txt "" then None
      else
        match chord_text_search txt with
        | Some parsed_text =>
            match harmony_ChordSymbol parsed_text with
            | Some _ => Some parsed_text
            | None => None
            end
        | None => None
        end
  | _ => None
  end.

(** The [try] block that builds the chord object and places it; every
    exception raised in it is caught, which leaves the list as it was. *)
Definition place_chord (ticks_per_quarter absolute_time_ticks : Z)
    (chord_text : string) (chords : list placed_chord) : list placed_chord :=
  let built :=
    if String.eqb chord_text "N.C." then Some harmony_NoChord
    else harmony_ChordSymbol (_normalize_chord_figure chord_text) in
  match built with
  | Some c =>
      if truthy c then
        match Py.true_div absolute_time_ticks ticks_per_quarter with
        | Returned o => chords ++ [ {| cs := c; cs_offset := o |} ]
        | Raised => chords
        end
      else chords
  | None => chords
  end.

(** One turn of the loop over the messages. *)
Definition chord_step (ticks_per_quarter : Z)
    (st : Z * list placed_chord) (msg : message) : Z * list placed_chord :=
  let '(absolute_time_ticks, chords) := st in
  let absolute_time_ticks := absolute_time_ticks + time msg in
  match current_chord_text msg with
  | Some chord_text =>
      if String.eqb chord_text "" then (absolute_time_ticks, chords)
      else (absolute_time_ticks,
            place_chord ticks_per_quarter absolute_time_ticks chord_text chords)
  | None => (absolute_time_ticks, chords)
  end.

Definition chord_loop (ticks_per_quarter : Z)
    (st : Z * list placed_chord) (msgs : list message) : Z * list placed_chord :=
  foldl (chord_step ticks_per_quarter) st msgs.

Definition _parse_chords_from_midi (mido_MidiFile : file_system)
    (midi_path : string) (ticks_per_quarter : Z) : result (list placed_chord) :=
  match mido_MidiFile midi_path with
  | None => Returned []
  | Some mf =>
      Returned (snd (chord_loop ticks_per_quarter (0, []) (merge_tracks mf)))
  end.

End ChordScan.

(** ** The rehearsal-mark scan *)

(** The label built from the data byte [rr] (lines 293 to 300). *)
Definition rehe_mark_text (rr : Z) : string :=
  let base_idx := Z.land rr 0x0F in
  let var_idx := Z.land (Z.shiftr rr 4) 0x07 in
  let base_str := default "?" (XF_REHE_BASE !! base_idx) in
  let var_str := Py.str_mul "'" var_idx in
  base_str +:+ var_str.

Definition rehe_step (st : Z * list (Z * string)) (msg : message)
    : Z * list (Z * string) :=
  let '(absolute_time_ticks, rehearsal_marks) := st in
  let absolute_time_ticks := absolute_time_ticks + time msg in
  match kind msg with
  | sequencer_specific data =>
      match xf_event data with
      | Some (event_id, _) =>
          if event_id =? XF_REHE_ID then
            match data !! 3%nat with
            | Some rr =>
                (absolute_time_ticks,
                 rehearsal_marks ++ [(absolute_time_ticks, rehe_mark_text rr)])
            | None => (absolute_time_ticks, rehearsal_marks)
            end
          else (absolute_time_ticks, rehearsal_marks)
      | None => (absolute_time_ticks, rehearsal_marks)
      end
  | _ => (absolute_time_ticks, rehearsal_marks)
  end.

Definition rehe_loop (st : Z * list (Z * string)) (msgs : list message)
    : Z * list (Z * string) :=
  foldl rehe_step st msgs.

Definition _parse_rehe_from_midi (mido_MidiFile : file_system)
    (midi_path : string) (ticks_per_quarter : Z) : result (list (Z * string)) :=
  match mido_MidiFile midi_path with
  | None => Returned []
  | Some mf => Returned (snd (rehe_loop (0, []) (merge_tracks mf)))
  end.

(** ** The melody scan *)

Record Note : Type := { pitch : Z; offset : Qc; quarterLength : Qc }.

Record melody_state : Type := {
  absolute_time_ticks : Z;
  open_notes : gmap Z (Z * Z);
  notes : list Note
}.

(** The branch of a note end: [msg.note in open_notes], [pop], and the
    note appended. *)
Definition close_note (ticks_per_quarter now note : Z)
    (open : gmap Z (Z * Z)) (out : list Note) : result melody_state :=
  match open !! note with
  | Some (start_tick, velocity) =>
      let duration_ticks := now - start_tick in
      o <~ Py.true_div start_tick ticks_per_quarter ;;
      d <~ Py.true_div duration_ticks ticks_per_quarter ;;
      Returned {| absolute_time_ticks := now;
                  open_notes := delete note open;
                  notes := out ++ [ {| pitch := note; offset := o; quarterLength := d |} ] |}
  | None =>
      Returned {| absolute_time_ticks := now; open_notes := open; notes := out |}
  end.

Definition melody_step (ticks_per_quarter : Z) (st : melody_state) (msg : message)
    : result melody_state :=
  let now := absolute_time_ticks st + time msg in
  let skip := Returned {| absolute_time_ticks := now;
                          open_notes := open_notes st; notes := notes st |} in
  match kind msg with
  | note_on channel note velocity =>
      if channel =? 0 then
        if 0 <? velocity then
          Returned {| absolute_time_ticks := now;
                      open_notes := <[note := (now, velocity)]> (open_notes st);
                      notes := notes st |}
        else if velocity =? 0 then
          close_note ticks_per_quarter now note (open_notes st) (notes st)
        else skip
      else skip
  | note_off channel note _ =>
      if channel =? 0 then
        close_note ticks_per_quarter now note (open_notes st) (notes st)
      else skip
  | _ => skip
  end.

Fixpoint melody_loop (ticks_per_quarter : Z) (st : melody_state)
    (msgs : list message) : result melody_state :=
  match msgs with
  | [] => Returned st
  | msg :: rest =>
      st' <~ melody_step ticks_per_quarter st msg ;;
      melody_loop ticks_per_quarter st' rest
  end.

Definition melody_start : melody_state :=
  {| absolute_time_ticks := 0; open_notes := ∅; notes := [] |}.

Definition _parse_melody_with_mido (mido_MidiFile : file_system)
    (melody_midi_path : string) (ticks_per_quarter : Z) : result (list Note) :=
  match mido_MidiFile melody_midi_path with
  | None => Raised
  | Some mf =>
      st <~ melody_loop ticks_per_quarter melody_start (merge_tracks mf) ;;
      Returned (notes st)
  end.

(** ** Vocabulary of the statements *)

(** Whether a character occurs in a string. *)
Fixpoint contains_char (c : ascii) (s : string) : bool :=
  match s with
  | String a s' => Ascii.eqb a c || contains_char c s'
  | EmptyString => false
  end.

Definition has_slash (figure : string) : bool := contains_char "/" figure.

(** The sum of the delta times of a run of messages. *)
Definition ticks_of (msgs : list message) : Z :=
  foldr (fun m acc => time m + acc) 0 msgs.

(** The messages the melody scan reacts to, for a pitch [p]: a note start
    (note-on with a positive velocity) and a note end (note-off, or note-on
    with velocity 0), on channel 0. *)
Definition is_note_start (p : Z) (m : message) : bool :=
  match kind m with
  | note_on channel note velocity => (channel =? 0) && (note =? p) && (0 <? velocity)
  | _ => false
  end.

Definition is_note_end (p : Z) (m : message) : bool :=
  match kind m with
  | note_on channel note velocity => (channel =? 0) && (note =? p) && (velocity =? 0)
  | note_off channel note _ => (channel =? 0) && (note =? p)
  | _ => false
  end.

(** A message with the same delta time that carries nothing for any of
    the scans. *)
Definition silenced (m : message) : message := Msg (time m) other_meta.

(** The notes the melody scan returns for a stream of messages. *)
Definition melody_of (ticks_per_quarter : Z) (msgs : list message) : result (list Note) :=
  st <~ melody_loop ticks_per_quarter melody_start msgs ;; Returned (notes st).

(** The state of the melody scan after a message that it passes over. *)
Definition passed_over (st : melody_state) (m : message) : melody_state :=
  {| absolute_time_ticks := absolute_time_ticks st + time m;
     open_notes := open_notes st;
     notes := notes st |}.

(** The note names and the type names the decoder can put in a figure, and
    the check that normalizing twice is normalizing once, on a figure and
    on all the figures made of these names. *)
Definition note_names : list string :=
  n ← (map_to_list XF_ROOT_NOTE).*2; d ← (map_to_list XF_ROOT_DISP).*2; [n +:+ d].

Definition type_names : list string := (map_to_list XF_CHORD_TYPES).*2.

Definition normalized_twice_same (figure : string) : bool :=
  String.eqb (_normalize_chord_figure (_normalize_chord_figure figure))
             (_normalize_chord_figure figure).

(** The rewriting steps of the normalizer, without its test for the empty
    figure and for "N.C.". *)
Definition normalize_steps (figure : string) : string :=
  let figure := Re.sub note_name_regex simplify_enharmonics figure in
  let figure := Py.replace "add9" "add2" figure in
  let figure := Py.replace "m7(11)" "m11" figure in
  let figure := Py.replace "m(maj7,9)" "m(maj9)" figure in
  Py.replace "b" "-" (Py.replace "bb" "--" figure).

Definition steps_twice_same (figure : string) : bool :=
  String.eqb (normalize_steps (normalize_steps figure)) (normalize_steps figure).

(** The check made on the figures of the decoder: on every root with a
    type, and on every note name taken as a bass. *)
Definition decoded_figures_checked : bool :=
  forallb
    (fun r =>
       steps_twice_same r
       && forallb
            (fun t => normalized_twice_same (r +:+ t) && steps_twice_same (r +:+ t))
            type_names)
    note_names.

(** A pattern none of whose parts accepts the character '/'. *)
Fixpoint slash_free (r : Re.regex) : bool :=
  match r with
  | Re.Class p | Re.StarClass p => negb (p "/"%char)
  | Re.Lit l => negb (contains_char "/" l)
  | Re.Cat r1 r2 | Re.Alt r1 r2 => slash_free r1 && slash_free r2
  | Re.Opt r1 => slash_free r1
  | Re.Empty | Re.WordBoundary => true
  end.

(** The ways one event of the chord scan can fail to decode: the bytes of
    an XF chord event are not recognized, the chord-like candidate of a
    text event is refused by the validator, or the chord constructor
    refuses the normalized figure. *)
Inductive decode_failure {chord_symbol : Type}
    (harmony_ChordSymbol : string -> option chord_symbol) (msg : message) : Prop :=
| xf_chord_unrecognized (data payload : list Z) :
    kind msg = sequencer_specific data ->
    xf_event data = Some (XF_CHORD_ID, payload) ->
    _parse_xf_chord_sysex (filter (fun b => b ≠ 0x7F) payload) = None ->
    decode_failure harmony_ChordSymbol msg
| text_not_validated (type : text_type) (txt candidate : string) :
    kind msg = text_meta type txt ->
    chord_text_search (Py.strip txt) = Some candidate ->
    harmony_ChordSymbol candidate = None ->
    decode_failure harmony_ChordSymbol msg
| chord_not_constructed (chord_text : string) :
    current_chord_text harmony_ChordSymbol msg = Some chord_text ->
    chord_text <> "N.C." ->
    harmony_ChordSymbol (_normalize_chord_figure chord_text) = None ->
    decode_failure harmony_ChordSymbol msg.

(** A validator that accepts the figure "Cmaj7" and nothing else, with the
    figure itself as the chord object. *)
Definition only_Cmaj7 (figure : string) : option string :=
  if String.eqb figure "Cmaj7" then Some figure else None.

(** A file system on which every open fails. *)
Definition no_files : file_system := fun _ => None.

(** The sixteen base labels of a rehearsal mark, in the order of their
    codes. *)
Definition rehearsal_base_labels : list string :=
  [ "Intro"; "Ending"; "Fill-in";
    "A"; "B"; "C"; "D"; "E"; "F"; "G"; "H"; "I"; "J"; "K"; "L"; "M" ].

(** [n] apostrophes. *)
Definition apostrophes (n : nat) : string :=
  string_of_list_ascii (replicate n "'"%char).

(** Two states of the melody scan that differ at most in the pending entry
    of pitch [p], and two outcomes that raise together or return related
    values. *)
Definition agree_except (p : Z) (a b : melody_state) : Prop :=
  absolute_time_ticks a = absolute_time_ticks b
  /\ notes a = notes b
  /\ forall k, k <> p -> open_notes a !! k = open_notes b !! k.

Definition result_rel {A} (R : A -> A -> Prop) (r1 r2 : result A) : Prop :=
  match r1, r2 with
  | Returned a, Returned b => R a b
  | Raised, Raised => True
  | _, _ => False
  end.

(** What the decoder computes once the length test has passed. *)
Definition decode_fields (cr ct bn : Z) : option string :=
  match XF_CHORD_TYPES !! ct with
  | None => None
  | Some type_str =>
      if String.eqb type_str "N.C." then Some "N.C."
      else
        match parse_note_byte cr with
        | None => None
        | Some root_str =>
            match parse_note_byte bn with
            | Some bass_str =>
                if negb (String.eqb root_str bass_str)
                then Some (root_str +:+ type_str +:+ "/" +:+ bass_str)
                else Some (root_str +:+ type_str)
            | None => Some (root_str +:+ type_str)
            end
        end
  end.

(** ** The title of the file *)

(** What [_get_title_from_midi] looks at in a message of a track: whether
    its type is 'track_name', and then its name. *)
Inductive track_msg : Type :=
| track_name (name : string)
| other_track_msg.

(** The loop over the first track, left at the first 'track_name'. *)
Fixpoint first_track_name (track : list track_msg) : option string :=
  match track with
  | [] => None
  | track_name name :: _ => Some (Py.strip name)
  | other_track_msg :: rest => first_track_name rest
  end.

Definition _get_title_from_midi (tracks : list (list track_msg)) : option string :=
  match tracks with
  | [] => None
  | track :: _ => first_track_name track
  end.

(** ** The check utilities *)

(** How a utility ends: [sys.exit(code)], or it returns after printing the
    number of items it found. *)
Inductive check_outcome : Type :=
| SysExit (code : Z)
| Reported (found : nat).

Section Checks.

Context {chord_symbol : Type}.
Variable harmony_ChordSymbol : string -> option chord_symbol.
Variable harmony_NoChord : chord_symbol.
Variable truthy : chord_symbol -> bool.

(** [path_exists] is [Path.exists] for every path. *)
Definition check_chords_in_file (path_exists : string -> bool)
    (mido_MidiFile : file_system) (file_path : string) : check_outcome :=
  if negb (path_exists file_path) then SysExit 1
  else
    match mido_MidiFile file_path with
    | None => SysExit 1
    | Some mf =>
        match _parse_chords_from_midi harmony_ChordSymbol harmony_NoChord truthy
                mido_MidiFile file_path (ticks_per_beat mf) with
        | Returned chords => Reported (length chords)
        | Raised => SysExit 1
        end
    end.

End Checks.

Definition check_rehe_in_file (path_exists : string -> bool)
    (mido_MidiFile : file_system) (file_path : string) : check_outcome :=
  if negb (path_exists file_path) then SysExit 1
  else
    match mido_MidiFile file_path with
    | None => SysExit 1
    | Some mf =>
        match _parse_rehe_from_midi mido_MidiFile file_path (ticks_per_beat mf) with
        | Returned marks => Reported (length marks)
        | Raised => SysExit 1
        end
    end.

(** ** Vocabulary of the further properties *)

Definition starts_with_note_letter (s : string) : bool :=
  match s with
  | String c _ => is_A_to_G c
  | EmptyString => false
  end.

(** A figure cut after its note name: the first character and the flats
    and sharps that follow it, and the rest. *)
Fixpoint accidentals_then (s : string) : string * string :=
  match s with
  | String c s' =>
      if is_flat_or_sharp c
      then (String c (accidentals_then s').1, (accidentals_then s').2)
      else (EmptyString, s)
  | EmptyString => (EmptyString, EmptyString)
  end.

Definition split_root (figure : string) : string * string :=
  match figure with
  | String c s => (String c (accidentals_then s).1, (accidentals_then s).2)
  | EmptyString => (EmptyString, EmptyString)
  end.

(** Whether every character of a string satisfies a test. *)
Fixpoint all_chars (p : ascii -> bool) (s : string) : bool :=
  match s with
  | String c s' => p c && all_chars p s'
  | EmptyString => true
  end.

(** The messages a scan reads: the chord scan and the rehearsal scan read
    meta messages, the melody scan reads the note messages of channel 0.
    The others are replaced by a message that only carries their time. *)
Definition only_meta (m : message) : message :=
  if is_meta m then m else silenced m.

Definition is_channel_0_note (m : message) : bool :=
  match kind m with
  | note_on channel _ _ | note_off channel _ _ => channel =? 0
  | _ => false
  end.

Definition only_channel_0_notes (m : message) : message :=
  if is_channel_0_note m then m else silenced m.

(** Any note start and any note end of channel 0, and how many there are
    in a stream. *)
Definition is_a_note_start (m : message) : bool :=
  match kind m with
  | note_on channel _ velocity => (channel =? 0) && (0 <? velocity)
  | _ => false
  end.

Definition is_a_note_end (m : message) : bool :=
  match kind m with
  | note_on channel _ velocity => (channel =? 0) && (velocity =? 0)
  | note_off channel _ _ => channel =? 0
  | _ => false
  end.

Fixpoint count_msgs (p : message -> bool) (msgs : list message) : nat :=
  match msgs with
  | [] => 0
  | m :: rest => ((if p m then 1 else 0) + count_msgs p rest)%nat
  end.

(** The note the melody scan builds for pitch [p] started at tick [s] and
    ended at tick [e]. *)
Definition note_of_span (q : Z) (span : Z * Z * Z) : Note :=
  let '(p, s, e) := span in
  {| pitch := p;
     offset := (Qc_of_Z s / Qc_of_Z q)%Qc;
     quarterLength := (Qc_of_Z (e - s) / Qc_of_Z q)%Qc |}.

Definition span_end (span : Z * Z * Z) : Z := span.2.

(** What holds of the state of the melody scan all along, for the spans
    (pitch, start tick, end tick) of the notes found so far: the notes are
    those of the spans, every span starts at a tick that is not negative
    and ends between its start and the current tick, the spans are in the
    order of their ends, and every pending start is between 0 and the
    current tick. *)
Definition melody_inv (q : Z) (st : melody_state) (spans : list (Z * Z * Z)) : Prop :=
  0 <= absolute_time_ticks st
  /\ notes st = note_of_span q <$> spans
  /\ Forall (fun span : Z * Z * Z =>
               0 <= span.1.2 <= span.2 /\ span.2 <= absolute_time_ticks st) spans
  /\ StronglySorted Z.le (span_end <$> spans)
  /\ (forall k s v, open_notes st !! k = Some (s, v) -> 0 <= s <= absolute_time_ticks st).

(** ** The lead sheet and the command line *)

(** How a call ends: in [sys.exit(code)], in an exception, or by
    returning. *)
Inductive call_end (A : Type) : Type :=
| Exits (code : Z)
| Raises
| Returns (a : A).
Arguments Exits {A} code.
Arguments Raises {A}.
Arguments Returns {A} a.

(** The arguments as [argparse] hands them over: each option is a path or
    [None]. *)
Record cli_args : Type := {
  input : option string;
  output : option string;
  check_chords : option string;
  check_rehe : option string
}.

Section LeadSheet.

(** What lies outside the program: music21's chord symbols as before; the
    tracks of an opened file as [_get_title_from_midi] reads them;
    [converter.parse], [None] where it raises; and the building and the
    writing of the document (steps 4 to 7 of [create_lead_sheet], all of
    them calls into music21 and the file system), given the parsed score,
    the title that goes into the metadata, the chords, the notes and the
    output path. *)
Context {chord_symbol score : Type}.
Variable harmony_ChordSymbol : string -> option chord_symbol.
Variable harmony_NoChord : chord_symbol.
Variable truthy : chord_symbol -> bool.
Variable mido_MidiFile : file_system.
Variable path_exists : string -> bool.
Variable tracks : MidiFile -> list (list track_msg).
Variable converter_parse : string -> option score.
Variable write_lead_sheet :
  score -> option string -> list (@placed_chord chord_symbol) -> list Note -> string
  -> result unit.

(** [if title:] on a title that is a string or [None]. *)
Definition title_for_metadata (title : option string) : option string :=
  match title with
  | Some t => if String.eqb t "" then None else Some t
  | None => None
  end.

Definition create_lead_sheet (midi_path output_xml_path : string) : call_end unit :=
  match mido_MidiFile midi_path with
  | None => Exits 1
  | Some melody_mf =>
      let ticks_per_quarter := ticks_per_beat melody_mf in
      let title := _get_title_from_midi (tracks melody_mf) in
      match converter_parse midi_path with
      | None => Exits 1
      | Some melody_score =>
          match _parse_melody_with_mido mido_MidiFile midi_path ticks_per_quarter with
          | Raised => Raises
          | Returned extracted_melody_notes =>
              match _parse_chords_from_midi harmony_ChordSymbol harmony_NoChord truthy
                      mido_MidiFile midi_path ticks_per_quarter with
              | Raised => Raises
              | Returned extracted_chords =>
                  match write_lead_sheet melody_score (title_for_metadata title)
                          extracted_chords extracted_melody_notes output_xml_path with
                  | Returned _ => Returns tt
                  | Raised => Raises
                  end
              end
          end
      end
  end.

Definition run_lead_sheet_generation (input_file output_file : string) : call_end unit :=
  create_lead_sheet input_file output_file.

(** [main], from the parsed arguments to the exit status of the process. *)
Definition main (args : cli_args) : Z :=
  match check_chords args with
  | Some file_path =>
      match check_chords_in_file harmony_ChordSymbol harmony_NoChord truthy
              path_exists mido_MidiFile file_path with
      | SysExit code => code
      | Reported _ => 0
      end
  | None =>
      match check_rehe args with
      | Some file_path =>
          match check_rehe_in_file path_exists mido_MidiFile file_path with
          | SysExit code => code
          | Reported _ => 0
          end
      | None =>
          match input args, output args with
          | Some input_file, Some output_file =>
              match run_lead_sheet_generation input_file output_file with
              | Exits code => code
              | Raises => 1
              | Returns _ => 0
              end
          | _, _ => 1
          end
      end
  end.

End LeadSheet.

(** * Properties *)

(** ** Finite case analysis *)

Lemma Forall_seqZ_range (P : Z -> Prop) (lo n : Z) :
  Forall P (seqZ lo n) -> forall z, lo <= z < lo + n -> P z.
Proof.
  intros HP z Hz. rewrite Forall_forall in HP. apply HP.
  apply elem_of_seqZ. lia.
Qed.

Lemma land_7_range (z : Z) : 0 <= Z.land z 7 < 8.
Proof.
  change 7 with (Z.ones 3). rewrite Z.land_ones by lia.
  apply Z.mod_pos_bound. reflexivity.
Qed.

Lemma land_15_range (z : Z) : 0 <= Z.land z 15 < 16.
Proof.
  change 15 with (Z.ones 4). rewrite Z.land_ones by lia.
  apply Z.mod_pos_bound. reflexivity.
Qed.

Lemma string_app_assoc (s t u : string) : (s +:+ t) +:+ u = s +:+ t +:+ u.
Proof.
  induction s as [|a s IH]; [reflexivity|].
  change (String a ((s +:+ t) +:+ u) = String a (s +:+ t +:+ u)).
  by rewrite IH.
Qed.

Lemma contains_char_app (c : ascii) (s t : string) :
  contains_char c (s +:+ t) = contains_char c s || contains_char c t.
Proof.
  induction s as [|a s IH]; simpl; [reflexivity|].
  rewrite IH. apply orb_assoc.
Qed.

(** ** The tables of the decoder *)

Lemma gmap_value_elem {V} (m : gmap Z V) (k : Z) (v : V) :
  m !! k = Some v -> v ∈ (map_to_list m).*2.
Proof.
  intros Hk. apply (list_elem_of_fmap_2' _ _ (k, v)); [|reflexivity].
  by apply elem_of_map_to_list.
Qed.

Lemma gmap_values_Forall {V} (P : V -> Prop) (m : gmap Z V) (k : Z) (v : V) :
  Forall P (map_to_list m).*2 -> m !! k = Some v -> P v.
Proof.
  intros HP Hk. rewrite Forall_forall in HP. apply HP.
  by eapply gmap_value_elem.
Qed.

Lemma XF_ROOT_DISP_defined (fff : Z) :
  0 <= fff < 8 -> (XF_ROOT_DISP !! fff = None <-> fff = 7).
Proof. revert fff. apply (Forall_seqZ_range _ 0 8). compute_done. Qed.

Lemma XF_ROOT_NOTE_defined (nnnn : Z) :
  0 <= nnnn < 16 -> (XF_ROOT_NOTE !! nnnn = None <-> ~ (1 <= nnnn <= 7)).
Proof. revert nnnn. apply (Forall_seqZ_range _ 0 16). compute_done. Qed.

Lemma XF_CHORD_TYPES_defined (ct : Z) :
  XF_CHORD_TYPES !! ct = None <-> ~ (0 <= ct <= 0x22).
Proof.
  destruct (decide (0 <= ct < 0 + 35)) as [Hin|Hout].
  - revert ct Hin. apply (Forall_seqZ_range _ 0 35). compute_done.
  - split; [lia|]. intros _. apply not_elem_of_list_to_map.
    intros Hk. apply Hout. revert Hk.
    change (XF_CHORD_TYPES_items.*1) with (seqZ 0 35).
    rewrite elem_of_seqZ. lia.
Qed.

Lemma XF_CHORD_TYPES_no_chord (ct : Z) (type_str : string) :
  XF_CHORD_TYPES !! ct = Some type_str ->
  (String.eqb type_str "N.C." = true <-> ct = 0x22).
Proof.
  intros H. apply elem_of_list_to_map_2 in H.
  assert (HF : Forall (fun kv : Z * string =>
                         String.eqb kv.2 "N.C." = true <-> kv.1 = 0x22)
                 XF_CHORD_TYPES_items) by compute_done.
  rewrite Forall_forall in HF. exact (HF _ H).
Qed.

Lemma XF_CHORD_TYPES_no_slash (ct : Z) (type_str : string) :
  XF_CHORD_TYPES !! ct = Some type_str -> has_slash type_str = false.
Proof.
  apply (gmap_values_Forall (fun v => has_slash v = false)). compute_done.
Qed.

(** ** The note-byte routine *)

Lemma parse_note_byte_None (note_byte : Z) :
  parse_note_byte note_byte = None <->
  note_byte = 127
  \/ Z.land (Z.shiftr note_byte 4) 7 = 7
  \/ ~ (1 <= Z.land note_byte 0x0F <= 7).
Proof.
  unfold parse_note_byte.
  pose proof (XF_ROOT_DISP_defined _ (land_7_range (Z.shiftr note_byte 4))) as Hd.
  pose proof (XF_ROOT_NOTE_defined _ (land_15_range note_byte)) as Hn.
  destruct (Z.eqb_spec note_byte 127) as [->|Hne].
  - split; [intros _; by left | reflexivity].
  - destruct (XF_ROOT_DISP !! _) as [d|] eqn:Ed.
    + destruct (XF_ROOT_NOTE !! _) as [n|] eqn:En.
      * split; [discriminate|].
        intros [?|[H7|Hr]]; [done| |].
        -- apply Hd in H7. discriminate.
        -- apply Hn in Hr. discriminate.
      * split; [|reflexivity]. intros _. right; right. by apply Hn.
    + split; [|reflexivity]. intros _. right; left. by apply Hd.
Qed.

Lemma parse_note_byte_no_slash (note_byte : Z) (s : string) :
  parse_note_byte note_byte = Some s -> has_slash s = false.
Proof.
  unfold parse_note_byte. destruct (note_byte =? 127); [discriminate|].
  destruct (XF_ROOT_DISP !! _) as [d|] eqn:Ed; [|discriminate].
  destruct (XF_ROOT_NOTE !! _) as [n|] eqn:En; [|discriminate].
  intros [= <-]. unfold has_slash. rewrite contains_char_app.
  apply orb_false_intro.
  - revert En. apply (gmap_values_Forall (fun v => contains_char "/" v = false)).
    compute_done.
  - revert Ed. apply (gmap_values_Forall (fun v => contains_char "/" v = false)).
    compute_done.
Qed.

Lemma parse_note_byte_127 : parse_note_byte 127 = None.
Proof. reflexivity. Qed.

(** ** The decoder, by the shape of its input *)

#[local] Arguments XF_CHORD_TYPES : simpl never.
#[local] Arguments XF_ROOT_DISP : simpl never.
#[local] Arguments XF_ROOT_NOTE : simpl never.
#[local] Arguments XF_REHE_BASE : simpl never.
#[local] Arguments parse_note_byte : simpl never.

Lemma decode_two (cr ct : Z) :
  _parse_xf_chord_sysex [cr; ct] = decode_fields cr ct 127.
Proof.
  unfold _parse_xf_chord_sysex, decode_fields.
  cbv [length Nat.leb andb negb].
  destruct (XF_CHORD_TYPES !! ct); [|reflexivity].
  destruct (String.eqb _ _); [reflexivity|].
  destruct (parse_note_byte cr); reflexivity.
Qed.

Lemma decode_three (cr ct bn : Z) :
  _parse_xf_chord_sysex [cr; ct; bn] = decode_fields cr ct bn.
Proof.
  unfold _parse_xf_chord_sysex, decode_fields.
  cbv [length Nat.leb andb negb].
  destruct (XF_CHORD_TYPES !! ct); [|reflexivity].
  destruct (String.eqb _ _); [reflexivity|].
  destruct (parse_note_byte cr); [|reflexivity].
  destruct (parse_note_byte bn); [|reflexivity].
  destruct (String.eqb _ _); [reflexivity|].
  by rewrite string_app_assoc.
Qed.

Lemma decode_four (cr ct bn x : Z) :
  _parse_xf_chord_sysex [cr; ct; bn; x] = decode_fields cr ct bn.
Proof.
  rewrite <- decode_three. unfold _parse_xf_chord_sysex.
  cbv [length Nat.leb andb negb]. reflexivity.
Qed.

Lemma decode_by_length (chord_bytes : list Z) :
  (2 <= length chord_bytes <= 4)%nat ->
  exists cr ct rest,
    chord_bytes = cr :: ct :: rest /\ (length rest <= 2)%nat /\
    _parse_xf_chord_sysex chord_bytes = decode_fields cr ct (default 127 (head rest)).
Proof.
  intros Hlen.
  destruct chord_bytes as [|cr [|ct rest]]; simpl in Hlen; try lia.
  exists cr, ct, rest. split; [reflexivity|]. split; [lia|].
  destruct rest as [|bn [|x [|y rest]]]; simpl in Hlen; try lia; cbv [head default].
  - apply decode_two.
  - apply decode_three.
  - apply decode_four.
Qed.

Lemma decode_fields_None (cr ct bn : Z) :
  decode_fields cr ct bn = None <->
  XF_CHORD_TYPES !! ct = None \/ (ct <> 0x22 /\ parse_note_byte cr = None).
Proof.
  unfold decode_fields.
  destruct (XF_CHORD_TYPES !! ct) as [t|] eqn:Et.
  - pose proof (XF_CHORD_TYPES_no_chord _ _ Et) as Hnc.
    destruct (String.eqb t "N.C.") eqn:Enc.
    + split; [discriminate|]. intros [?|[Hne _]]; [discriminate|].
      exfalso. apply Hne. by apply Hnc.
    + assert (ct <> 0x22) by (intros ?; by apply Hnc in H).
      destruct (parse_note_byte cr) as [r|].
      * split.
        -- destruct (parse_note_byte bn); [destruct (negb _)|]; discriminate.
        -- intros [?|[_ ?]]; discriminate.
      * split; [intros _; by right | reflexivity].
  - split; [intros _; by left | reflexivity].
Qed.

(** ** The binary chord decoder *)

(** C1, as stated, fails: a bass byte whose letter nibble is out of range
    does not make the decoder fail (the figure comes out without a bass),
    and with the no-chord type an undecodable root byte does not either. *)
Lemma undecodable_bass_or_root_still_decodes :
  Z.land 0x08 0x0F = 8
  /\ parse_note_byte 0x08 = None
  /\ _parse_xf_chord_sysex [0x31; 0x00; 0x08] = Some "C"
  /\ parse_note_byte 0x00 = None
  /\ _parse_xf_chord_sysex [0x00; 0x22] = Some "N.C.".
Proof. repeat split; vm_compute; reflexivity. Qed.

(** C1 (amended).  For every byte sequence of length 2 to 4 the decoder
    returns no figure exactly when the type byte is outside the chord-type
    table (0x00 to 0x22), or the type is not the no-chord code 0x22 and the
    root byte fails to decode.  Root and bass go through one routine, which
    fails on the value 127, on the accidental code 7 (bits 4-6) and on a
    letter code outside 1-7 (bits 0-3); a bass byte on which it fails is
    taken as "no bass": the result is that of the root and type bytes
    alone. *)
Theorem chord_decoder_unrecognized (chord_bytes : list Z) (cr ct : Z) :
  (2 <= length chord_bytes <= 4)%nat ->
  chord_bytes !! 0%nat = Some cr ->
  chord_bytes !! 1%nat = Some ct ->
  (_parse_xf_chord_sysex chord_bytes = None <->
     ~ (0 <= ct <= 0x22) \/ (ct <> 0x22 /\ parse_note_byte cr = None))
  /\ (forall b : Z,
        parse_note_byte b = None <->
        b = 127 \/ Z.land (Z.shiftr b 4) 7 = 7 \/ ~ (1 <= Z.land b 0x0F <= 7))
  /\ (forall bn : Z,
        chord_bytes !! 2%nat = Some bn ->
        parse_note_byte bn = None ->
        _parse_xf_chord_sysex chord_bytes = _parse_xf_chord_sysex [cr; ct]).
Proof.
  intros Hlen H0 H1.
  destruct (decode_by_length _ Hlen) as (cr' & ct' & rest & -> & Hrest & Hdec).
  injection H0 as ->. injection H1 as ->.
  split; [|split].
  - rewrite Hdec, decode_fields_None, XF_CHORD_TYPES_defined. reflexivity.
  - apply parse_note_byte_None.
  - intros bn H2 Hbn. destruct rest as [|bn' rest]; [discriminate|].
    injection H2 as ->. rewrite Hdec, decode_two.
    change (default 127 (head (bn :: rest))) with bn.
    unfold decode_fields. rewrite Hbn, parse_note_byte_127. reflexivity.
Qed.

Lemma chord_decoder_unrecognized_witness :
  _parse_xf_chord_sysex [0x31; 0x00; 0x08] = _parse_xf_chord_sysex [0x31; 0x00].
Proof.
  refine (proj2 (proj2 (chord_decoder_unrecognized [0x31; 0x00; 0x08] 0x31 0x00 _ _ _)) 0x08 _ _).
  - simpl; lia.
  - reflexivity.
  - reflexivity.
  - reflexivity.
  - vm_compute; reflexivity.
Defined.

(** C2, as stated, fails: the bass byte 0x45 has letter code 5, which is G,
    so the figure is not "Dmaj7/F#". *)
Lemma decode_32_02_45_is_not_F_sharp :
  _parse_xf_chord_sysex [0x32; 0x02; 0x45] <> Some "Dmaj7/F#".
Proof. vm_compute. discriminate. Qed.

(** C2 (amended).  The byte sequence (0x32, 0x02, 0x45) decodes to
    "Dmaj7/G#": root D natural, type 0x02 = maj7, bass G#, with the slash
    suffix because root and bass differ.  The figure "Dmaj7/F#" is the
    decoding of (0x32, 0x02, 0x44). *)
Theorem decode_32_02_45 :
  _parse_xf_chord_sysex [0x32; 0x02; 0x45] = Some "Dmaj7/G#"
  /\ parse_note_byte 0x32 = Some "D"
  /\ XF_CHORD_TYPES !! 0x02 = Some "maj7"
  /\ parse_note_byte 0x45 = Some "G#"
  /\ _parse_xf_chord_sysex [0x32; 0x02; 0x44] = Some "Dmaj7/F#".
Proof. repeat split; vm_compute; reflexivity. Qed.

(** C3.  A byte sequence of length 2 to 4 whose type byte is 0x22 decodes
    to "N.C.", whatever the root byte and the bytes after the type are. *)
Theorem no_chord_sentinel (chord_bytes : list Z) :
  (2 <= length chord_bytes <= 4)%nat ->
  chord_bytes !! 1%nat = Some 0x22 ->
  _parse_xf_chord_sysex chord_bytes = Some "N.C.".
Proof.
  intros Hlen H1.
  destruct (decode_by_length _ Hlen) as (cr & ct & rest & -> & _ & ->).
  injection H1 as ->. reflexivity.
Qed.

Lemma no_chord_sentinel_witness :
  _parse_xf_chord_sysex [0x00; 0x22; 0x0F; 0x99] = Some "N.C.".
Proof.
  apply no_chord_sentinel.
  - simpl; lia.
  - reflexivity.
Defined.

(** C4.  For a root byte and a type byte that decode: with no third byte
    the figure has no '/'; a third byte 127 changes nothing, and neither
    does a bass byte that decodes to the same note as the root (with or
    without a fourth byte), so no slash suffix is emitted then. *)
Theorem no_slash_suffix (cr ct : Z) (root_str type_str : string) :
  parse_note_byte cr = Some root_str ->
  XF_CHORD_TYPES !! ct = Some type_str ->
  (exists figure, _parse_xf_chord_sysex [cr; ct] = Some figure
                  /\ has_slash figure = false)
  /\ _parse_xf_chord_sysex [cr; ct; 127] = _parse_xf_chord_sysex [cr; ct]
  /\ (forall x, _parse_xf_chord_sysex [cr; ct; 127; x] = _parse_xf_chord_sysex [cr; ct])
  /\ (forall bn, parse_note_byte bn = Some root_str ->
        _parse_xf_chord_sysex [cr; ct; bn] = _parse_xf_chord_sysex [cr; ct]
        /\ forall x, _parse_xf_chord_sysex [cr; ct; bn; x] = _parse_xf_chord_sysex [cr; ct]).
Proof.
  intros Hroot Htype.
  rewrite decode_two, decode_three.
  split; [|split; [reflexivity|split]].
  - unfold decode_fields. rewrite Htype, Hroot, parse_note_byte_127.
    destruct (String.eqb type_str "N.C."); eexists; (split; [reflexivity|]).
    + reflexivity.
    + unfold has_slash. rewrite contains_char_app.
      apply orb_false_intro.
      * exact (parse_note_byte_no_slash _ _ Hroot).
      * exact (XF_CHORD_TYPES_no_slash _ _ Htype).
  - intros x. rewrite decode_four. reflexivity.
  - intros bn Hbn.
    assert (decode_fields cr ct bn = decode_fields cr ct 127) as Heq.
    { unfold decode_fields. rewrite Htype, Hroot, Hbn, parse_note_byte_127.
      rewrite String.eqb_refl. reflexivity. }
    split; [by rewrite decode_three | intros x; by rewrite decode_four].
Qed.

Lemma no_slash_suffix_witness :
  (exists figure, _parse_xf_chord_sysex [0x44; 0x0B] = Some figure
                  /\ has_slash figure = false)
  /\ _parse_xf_chord_sysex [0x44; 0x0B; 127] = _parse_xf_chord_sysex [0x44; 0x0B].
Proof.
  pose proof (no_slash_suffix 0x44 0x0B "F#" "m7b5") as H.
  destruct H as (H1 & H2 & _).
  - vm_compute; reflexivity.
  - vm_compute; reflexivity.
  - split; [exact H1 | exact H2].
Defined.

(** ** The melody scan *)

Lemma true_div_nonzero (a b : Z) :
  b <> 0 -> Py.true_div a b = Returned (Qc_of_Z a / Qc_of_Z b)%Qc.
Proof. intros Hb. unfold Py.true_div. by destruct (Z.eqb_spec b 0). Qed.

(** The three ways a message is handled. *)
Lemma melody_step_cases (q : Z) (st : melody_state) (m : message) :
  let now := absolute_time_ticks st + time m in
  (exists p v, kind m = note_on 0 p v /\ 0 < v /\
      melody_step q st m =
        Returned {| absolute_time_ticks := now;
                    open_notes := <[p := (now, v)]> (open_notes st);
                    notes := notes st |})
  \/ (exists p, is_note_end p m = true /\
        melody_step q st m = close_note q now p (open_notes st) (notes st))
  \/ ((forall p, is_note_end p m = false) /\ (forall p, is_note_start p m = false) /\
        melody_step q st m = Returned (passed_over st m)).
Proof.
  intros now. unfold melody_step, is_note_end, is_note_start, passed_over.
  destruct (kind m) as [data|ty txt| |ch n v|ch n v|ch|];
    try (right; right; repeat split; reflexivity).
  - destruct (Z.eqb_spec ch 0) as [->|Hch]; [|right; right; repeat split; reflexivity].
    destruct (Z.ltb_spec 0 v) as [Hv|Hv].
    + left. exists n, v. repeat split; [assumption].
    + destruct (Z.eqb_spec v 0) as [->|Hv0].
      * right; left. exists n. rewrite Z.eqb_refl. split; reflexivity.
      * right; right. repeat split; intros p; by rewrite !andb_false_r.
  - destruct (Z.eqb_spec ch 0) as [->|Hch]; [|right; right; repeat split; reflexivity].
    right; left. exists n. rewrite Z.eqb_refl. split; reflexivity.
Qed.

Lemma melody_loop_app (q : Z) (st : melody_state) (l1 l2 : list message) :
  melody_loop q st (l1 ++ l2) =
  (st' <~ melody_loop q st l1 ;; melody_loop q st' l2).
Proof.
  revert st. induction l1 as [|m l1 IH]; intros st; simpl; [reflexivity|].
  destruct (melody_step q st m) as [st'|]; simpl; [apply IH | reflexivity].
Qed.

Lemma close_note_total (q now p : Z) (open : gmap Z (Z * Z)) (out : list Note) :
  q <> 0 ->
  exists st', close_note q now p open out = Returned st'
              /\ absolute_time_ticks st' = now
              /\ (forall k, k <> p -> open_notes st' !! k = open !! k)
              /\ exists more, notes st' = out ++ more.
Proof.
  intros Hq. unfold close_note.
  destruct (open !! p) as [[s v]|] eqn:Ep.
  - rewrite !true_div_nonzero by assumption. simpl.
    eexists; split; [reflexivity|]. simpl. split; [reflexivity|]. split.
    + intros k Hk. by rewrite lookup_delete_ne.
    + eexists; reflexivity.
  - eexists; split; [reflexivity|]. simpl. split; [reflexivity|]. split; [done|].
    exists []. by rewrite app_nil_r.
Qed.

(** With a non-zero resolution no turn of the loop raises; the tick count
    advances by the delta time and the notes found so far are kept. *)
Lemma melody_step_total (q : Z) (st : melody_state) (m : message) :
  q <> 0 ->
  exists st', melody_step q st m = Returned st'
              /\ absolute_time_ticks st' = absolute_time_ticks st + time m
              /\ exists more, notes st' = notes st ++ more.
Proof.
  intros Hq.
  destruct (melody_step_cases q st m) as [(p & v & _ & _ & ->)|[(p & _ & ->)|(_ & _ & ->)]].
  - eexists; split; [reflexivity|]. simpl. split; [reflexivity|].
    exists []. by rewrite app_nil_r.
  - destruct (close_note_total q (absolute_time_ticks st + time m) p
                (open_notes st) (notes st) Hq) as (st' & -> & Ht & _ & Hn).
    exists st'. done.
  - eexists; split; [reflexivity|]. simpl. split; [reflexivity|].
    exists []. by rewrite app_nil_r.
Qed.

Lemma melody_loop_total (q : Z) (st : melody_state) (msgs : list message) :
  q <> 0 ->
  exists st', melody_loop q st msgs = Returned st'
              /\ absolute_time_ticks st' = absolute_time_ticks st + ticks_of msgs
              /\ exists more, notes st' = notes st ++ more.
Proof.
  intros Hq. revert st. induction msgs as [|m msgs IH]; intros st; simpl.
  - exists st. split; [reflexivity|]. split; [lia|].
    exists []. by rewrite app_nil_r.
  - destruct (melody_step_total q st m Hq) as (st1 & -> & Ht1 & more1 & Hn1). simpl.
    destruct (IH st1) as (st2 & -> & Ht2 & more2 & Hn2).
    exists st2. split; [reflexivity|]. split; [lia|].
    exists (more1 ++ more2). by rewrite Hn2, Hn1, app_assoc.
Qed.

(** A stretch of messages with no note start and no note end for [p]
    leaves the pending entry of [p] as it is. *)
Lemma melody_step_untouched (q : Z) (st st' : melody_state) (m : message) (p : Z) :
  is_note_start p m = false -> is_note_end p m = false ->
  melody_step q st m = Returned st' ->
  open_notes st' !! p = open_notes st !! p.
Proof.
  intros Hs He.
  destruct (melody_step_cases q st m) as [(k & v & Hk & Hv & ->)|[(k & Hk & ->)|(_ & _ & ->)]].
  - intros [= <-]. simpl. apply lookup_insert_ne. intros ->.
    unfold is_note_start in Hs. rewrite Hk in Hs.
    rewrite Z.eqb_refl in Hs. simpl in Hs. lia.
  - assert (k <> p) as Hne by (intros ->; congruence).
    unfold close_note. destruct (open_notes st !! k) as [[s v]|].
    + destruct (Py.true_div s q); [|discriminate]. simpl.
      destruct (Py.true_div _ q); [|discriminate]. simpl.
      intros [= <-]. simpl. by apply lookup_delete_ne.
    + by intros [= <-].
  - by intros [= <-].
Qed.

Lemma melody_loop_untouched (q : Z) (st st' : melody_state) (msgs : list message) (p : Z) :
  Forall (fun m => is_note_start p m = false /\ is_note_end p m = false) msgs ->
  melody_loop q st msgs = Returned st' ->
  open_notes st' !! p = open_notes st !! p.
Proof.
  intros Hq. revert st. induction Hq as [|m msgs [Hs He] _ IH]; intros st; simpl.
  - by intros [= <-].
  - destruct (melody_step q st m) as [st1|] eqn:E1; [|discriminate]. simpl.
    intros H. rewrite (IH _ H). by eapply melody_step_untouched.
Qed.

Lemma melody_step_note_start (q : Z) (st : melody_state) (m : message) (p v : Z) :
  kind m = note_on 0 p v -> 0 < v ->
  melody_step q st m =
    Returned {| absolute_time_ticks := absolute_time_ticks st + time m;
                open_notes := <[p := (absolute_time_ticks st + time m, v)]> (open_notes st);
                notes := notes st |}.
Proof.
  intros Hk Hv. unfold melody_step. rewrite Hk. simpl.
  destruct (Z.ltb_spec 0 v); [reflexivity | lia].
Qed.

Lemma melody_step_note_end (q : Z) (st : melody_state) (m : message) (p : Z) :
  is_note_end p m = true ->
  melody_step q st m =
    close_note q (absolute_time_ticks st + time m) p (open_notes st) (notes st).
Proof.
  unfold is_note_end, melody_step.
  destruct (kind m) as [data|ty txt| |ch n v|ch n v|ch|]; try discriminate.
  - intros H. apply andb_prop in H as [H Hv]. apply andb_prop in H as [Hc Hn].
    apply Z.eqb_eq in Hc, Hn, Hv. subst. reflexivity.
  - intros H. apply andb_prop in H as [Hc Hn].
    apply Z.eqb_eq in Hc, Hn. subst. reflexivity.
Qed.

Lemma melody_start_loop (q : Z) (msgs : list message) :
  q <> 0 ->
  exists st, melody_loop q melody_start msgs = Returned st
             /\ absolute_time_ticks st = ticks_of msgs.
Proof.
  intros Hq. destruct (melody_loop_total q melody_start msgs Hq) as (st & H & Ht & _).
  exists st. split; [assumption|]. rewrite Ht. simpl. lia.
Qed.

Lemma parse_melody_opened (fs : file_system) (path : string) (mf : MidiFile) (q : Z) :
  fs path = Some mf ->
  _parse_melody_with_mido fs path q = melody_of q (merge_tracks mf).
Proof. intros H. unfold _parse_melody_with_mido. by rewrite H. Qed.

(** C5.  A note start for pitch [p] at tick [s] (positive velocity, channel
    0) followed, with no other start or end for [p] in between, by a note
    end for [p] at tick [e]: the note end makes the scan emit exactly one
    note, of pitch [p], offset [s/q] and duration [(e-s)/q], and the scan
    returns it among its notes.  When [e = s] the duration is 0 and the
    note is emitted all the same. *)
Theorem note_start_closed_by_note_end
    (q : Z) (pre mid post : list message) (on off : message) (p v : Z) :
  q <> 0 ->
  kind on = note_on 0 p v ->
  0 < v ->
  Forall (fun m => is_note_start p m = false /\ is_note_end p m = false) mid ->
  is_note_end p off = true ->
  let s := ticks_of pre + time on in
  let e := s + ticks_of mid + time off in
  let n := {| pitch := p;
              offset := (Qc_of_Z s / Qc_of_Z q)%Qc;
              quarterLength := (Qc_of_Z (e - s) / Qc_of_Z q)%Qc |} in
  exists before after,
    melody_of q (pre ++ on :: mid) = Returned before
    /\ melody_of q (pre ++ on :: mid ++ [off]) = Returned (before ++ [n])
    /\ (forall (fs : file_system) (path : string) (tpb : Z),
          fs path = Some {| ticks_per_beat := tpb;
                            merge_tracks := pre ++ on :: mid ++ off :: post |} ->
          _parse_melody_with_mido fs path q = Returned (before ++ [n] ++ after))
    /\ (e = s -> quarterLength n = 0%Qc).
Proof.
  intros Hq Hon Hv Hmid Hoff s e n.
  destruct (melody_start_loop q pre Hq) as (st0 & Hpre & Ht0).
  pose (st_on := {| absolute_time_ticks := s;
                    open_notes := <[p := (s, v)]> (open_notes st0);
                    notes := notes st0 |}).
  assert (melody_step q st0 on = Returned st_on) as Hstep_on.
  { rewrite (melody_step_note_start q st0 on p v Hon Hv). unfold st_on, s.
    by rewrite Ht0. }
  destruct (melody_loop_total q st_on mid Hq) as (st1 & Hloop_mid & Ht1 & _).
  assert (open_notes st1 !! p = Some (s, v)) as Hpending.
  { rewrite (melody_loop_untouched q st_on st1 mid p Hmid Hloop_mid).
    simpl. apply lookup_insert_eq. }
  pose (st2 := {| absolute_time_ticks := e;
                  open_notes := delete p (open_notes st1);
                  notes := notes st1 ++ [n] |}).
  assert (melody_step q st1 off = Returned st2) as Hstep_off.
  { rewrite (melody_step_note_end q st1 off p Hoff).
    unfold close_note. rewrite Hpending.
    rewrite !true_div_nonzero by assumption. simpl.
    unfold st2, n, e. rewrite Ht1. reflexivity. }
  destruct (melody_loop_total q st2 post Hq) as (st3 & Hloop_post & _ & after & Hafter).
  assert (melody_loop q melody_start (pre ++ on :: mid) = Returned st1) as H1.
  { rewrite melody_loop_app, Hpre. simpl. rewrite Hstep_on. simpl. assumption. }
  exists (notes st1), after. split; [|split; [|split]].
  - unfold melody_of. by rewrite H1.
  - unfold melody_of.
    change (pre ++ on :: mid ++ [off]) with (pre ++ (on :: mid) ++ [off]).
    rewrite app_assoc, melody_loop_app, H1. simpl. by rewrite Hstep_off.
  - intros fs path tpb Hfs.
    rewrite (parse_melody_opened _ _ _ _ Hfs). simpl. unfold melody_of.
    change (pre ++ on :: mid ++ off :: post) with (pre ++ (on :: mid) ++ off :: post).
    rewrite app_assoc, melody_loop_app, H1. simpl. rewrite Hstep_off. simpl.
    rewrite Hloop_post. simpl. rewrite Hafter. simpl. by rewrite <- app_assoc.
  - intros Hes. simpl. rewrite Hes, Z.sub_diag.
    unfold Qcdiv. apply Qcmult_0_l.
Qed.

Lemma note_start_closed_by_note_end_witness :
  exists before,
    melody_of 480 [ Msg 0 (note_on 0 60 100); Msg 240 (note_on 0 64 90);
                    Msg 240 (note_off 0 60 0) ]
    = Returned (before ++ [ {| pitch := 60;
                               offset := (Qc_of_Z 0 / Qc_of_Z 480)%Qc;
                               quarterLength := (Qc_of_Z 480 / Qc_of_Z 480)%Qc |} ]).
Proof.
  destruct (note_start_closed_by_note_end 480 [] [Msg 240 (note_on 0 64 90)] []
              (Msg 0 (note_on 0 60 100)) (Msg 240 (note_off 0 60 0)) 60 100)
    as (before & after & _ & H & _).
  - lia.
  - reflexivity.
  - lia.
  - repeat constructor.
  - reflexivity.
  - exists before. exact H.
Defined.

(** *** The pending-note table *)

Lemma melody_step_passed_over (q : Z) (st : melody_state) (m : message) :
  (forall p, is_note_end p m = false) ->
  (forall p, is_note_start p m = false) ->
  melody_step q st m = Returned (passed_over st m).
Proof.
  intros He Hs.
  destruct (melody_step_cases q st m) as [(p & v & Hk & Hv & _)|[(p & Hp & _)|(_ & _ & H)]].
  - specialize (Hs p). unfold is_note_start in Hs. rewrite Hk in Hs.
    rewrite Z.eqb_refl in Hs. simpl in Hs. lia.
  - specialize (He p). congruence.
  - exact H.
Qed.

Lemma melody_step_silenced (q : Z) (st : melody_state) (m : message) :
  melody_step q st (silenced m) = Returned (passed_over st m).
Proof. reflexivity. Qed.

Lemma melody_step_agree (q p : Z) (a b : melody_state) (m : message) :
  agree_except p a b ->
  is_note_end p m = false ->
  result_rel (agree_except p) (melody_step q a m) (melody_step q b m).
Proof.
  intros (Ht & Hn & Ho) He.
  destruct (melody_step_cases q a m) as [(k & v & Hk & Hv & ->)|[(k & Hk & ->)|(H1 & H2 & ->)]].
  - rewrite (melody_step_note_start q b m k v Hk Hv). simpl.
    rewrite Ht. repeat split; simpl; [assumption|].
    intros k' Hk'. rewrite !lookup_insert. case_decide; [reflexivity | by apply Ho].
  - rewrite (melody_step_note_end q b m k Hk).
    assert (k <> p) as Hne by (intros ->; congruence).
    unfold close_note. rewrite <- (Ho k Hne), <- Ht, <- Hn.
    destruct (open_notes a !! k) as [[s v]|].
    + destruct (Py.true_div s q); [|exact I]. simpl.
      destruct (Py.true_div _ q); [|exact I]. simpl.
      repeat split; simpl. intros k' Hk'. rewrite !lookup_delete.
      case_decide; [reflexivity | by apply Ho].
    + by repeat split.
  - rewrite (melody_step_passed_over q b m H1 H2). simpl.
    unfold passed_over. rewrite Ht. by repeat split.
Qed.

Lemma melody_loop_agree (q p : Z) (msgs : list message) (a b : melody_state) :
  Forall (fun m => is_note_end p m = false) msgs ->
  agree_except p a b ->
  result_rel (agree_except p) (melody_loop q a msgs) (melody_loop q b msgs).
Proof.
  intros Hmsgs. revert a b.
  induction Hmsgs as [|m msgs Hm _ IH]; intros a b Hab; simpl; [assumption|].
  pose proof (melody_step_agree q p a b m Hab Hm) as Hstep.
  destruct (melody_step q a m) as [a'|], (melody_step q b m) as [b'|];
    simpl in *; try done.
  by apply IH.
Qed.

(** A note start for [p] makes two such states equal. *)
Lemma melody_step_restart (q p v : Z) (a b : melody_state) (m : message) :
  agree_except p a b ->
  kind m = note_on 0 p v -> 0 < v ->
  melody_step q a m = melody_step q b m.
Proof.
  intros (Ht & Hn & Ho) Hk Hv.
  rewrite !(melody_step_note_start q _ m p v Hk Hv). rewrite Ht, Hn.
  do 2 f_equal. apply map_eq. intros k. rewrite !lookup_insert.
  case_decide; [reflexivity | by apply Ho].
Qed.

Lemma melody_loop_restart (q p v : Z) (a b : melody_state)
    (mid post : list message) (on2 : message) :
  agree_except p a b ->
  Forall (fun m => is_note_end p m = false) mid ->
  kind on2 = note_on 0 p v -> 0 < v ->
  melody_loop q a (mid ++ on2 :: post) = melody_loop q b (mid ++ on2 :: post).
Proof.
  intros Hab Hmid Hk Hv. rewrite !melody_loop_app.
  pose proof (melody_loop_agree q p mid a b Hmid Hab) as Hrel.
  destruct (melody_loop q a mid) as [a'|], (melody_loop q b mid) as [b'|];
    simpl in *; try done.
  by rewrite (melody_step_restart q p v a' b' on2 Hrel Hk Hv).
Qed.

(** C6.  The pending notes are kept in a map from pitch to (start tick,
    velocity), so a pitch has at most one pending note.  A note start for
    [p] stores its own entry for [p], whatever was pending, and emits no
    note; an earlier start for [p] that is replaced in this way, or that is
    still pending at the end of the stream, yields no note: the scan
    returns what it returns when that start is passed over.  A note end
    for a pitch with nothing pending changes nothing but the tick count. *)
Theorem pending_note_table (q p v : Z) (on : message) :
  kind on = note_on 0 p v ->
  0 < v ->
  (forall st : melody_state,
      exists st', melody_step q st on = Returned st'
        /\ open_notes st' = <[p := (absolute_time_ticks st + time on, v)]> (open_notes st)
        /\ open_notes st' !! p = Some (absolute_time_ticks st + time on, v)
        /\ notes st' = notes st)
  /\ (forall (st : melody_state) (off : message),
        is_note_end p off = true ->
        open_notes st !! p = None ->
        melody_step q st off = Returned (passed_over st off))
  /\ (forall (pre mid post : list message) (on2 : message) (v2 : Z),
        Forall (fun m => is_note_end p m = false) mid ->
        kind on2 = note_on 0 p v2 -> 0 < v2 ->
        melody_of q (pre ++ on :: mid ++ on2 :: post)
        = melody_of q (pre ++ silenced on :: mid ++ on2 :: post))
  /\ (forall pre mid : list message,
        Forall (fun m => is_note_end p m = false) mid ->
        melody_of q (pre ++ on :: mid) = melody_of q (pre ++ silenced on :: mid)).
Proof.
  intros Hon Hv.
  assert (forall st, agree_except p
            {| absolute_time_ticks := absolute_time_ticks st + time on;
               open_notes := <[p := (absolute_time_ticks st + time on, v)]> (open_notes st);
               notes := notes st |}
            (passed_over st on)) as Hagree.
  { intros st. repeat split; simpl. intros k Hk. by apply lookup_insert_ne. }
  split; [|split; [|split]].
  - intros st. rewrite (melody_step_note_start q st on p v Hon Hv).
    eexists; split; [reflexivity|]. simpl.
    split; [reflexivity|]. split; [apply lookup_insert_eq | reflexivity].
  - intros st off Hoff Hnone.
    rewrite (melody_step_note_end q st off p Hoff).
    unfold close_note. by rewrite Hnone.
  - intros pre mid post on2 v2 Hmid Hon2 Hv2. unfold melody_of.
    rewrite !melody_loop_app.
    destruct (melody_loop q melody_start pre) as [st0|]; [|reflexivity].
    cbn [rbind melody_loop].
    rewrite (melody_step_note_start q st0 on p v Hon Hv), melody_step_silenced.
    cbn [rbind].
    by rewrite (melody_loop_restart q p v2 _ _ mid post on2 (Hagree st0) Hmid Hon2 Hv2).
  - intros pre mid Hmid. unfold melody_of.
    rewrite !melody_loop_app.
    destruct (melody_loop q melody_start pre) as [st0|]; [|reflexivity].
    cbn [rbind melody_loop].
    rewrite (melody_step_note_start q st0 on p v Hon Hv), melody_step_silenced.
    cbn [rbind].
    pose proof (melody_loop_agree q p mid _ _ Hmid (Hagree st0)) as Hrel.
    destruct (melody_loop q _ mid) as [a|], (melody_loop q _ mid) as [b|];
      simpl in *; try done.
    destruct Hrel as (_ & Hn & _). by rewrite Hn.
Qed.

Lemma pending_note_table_witness :
  melody_of 480 [ Msg 0 (note_on 0 60 100); Msg 120 (note_on 0 60 80);
                  Msg 120 (note_off 0 60 0) ]
  = melody_of 480 [ silenced (Msg 0 (note_on 0 60 100)); Msg 120 (note_on 0 60 80);
                    Msg 120 (note_off 0 60 0) ].
Proof.
  refine (proj1 (proj2 (proj2
            (pending_note_table 480 60 100 (Msg 0 (note_on 0 60 100)) _ _)))
            [] [] [Msg 120 (note_off 0 60 0)] (Msg 120 (note_on 0 60 80)) 80 _ _ _).
  - reflexivity.
  - lia.
  - constructor.
  - reflexivity.
  - lia.
Defined.

(** ** The rehearsal-mark scan *)

Lemma xf_event_cons (event_id : Z) (payload : list Z) :
  xf_event (0x43 :: 0x7B :: event_id :: payload) = Some (event_id, payload).
Proof.
  unfold xf_event. simpl. reflexivity.
Qed.

Lemma repeat_nat_apostrophes (n : nat) : Py.repeat_nat "'" n = apostrophes n.
Proof.
  induction n as [|n IH]; [reflexivity|].
  simpl. rewrite IH. reflexivity.
Qed.

Lemma XF_REHE_BASE_labels (i : Z) :
  0 <= i < 16 ->
  rehearsal_base_labels !! Z.to_nat i = Some (default "?" (XF_REHE_BASE !! i)).
Proof. revert i. apply (Forall_seqZ_range _ 0 16). compute_done. Qed.

(** C8.  For every data byte [rr] the label is the base label selected by
    the low four bits of [rr] in the table Intro, Ending, Fill-in, A to M,
    followed by [v] apostrophes, [v] being bits 4 to 6 of [rr], a number
    from 0 to 7; the byte 0x13 gives "A'".  A rehearsal event carrying the
    data byte adds the mark at the current tick; one that stops after the
    ID adds nothing and the scan goes on. *)
Theorem rehearsal_label (rr : Z) :
  let i := rr mod 2 ^ 4 in
  let v := (rr / 2 ^ 4) mod 2 ^ 3 in
  0 <= i <= 15
  /\ 0 <= v <= 7
  /\ (exists base_str,
        rehearsal_base_labels !! Z.to_nat i = Some base_str
        /\ rehe_mark_text rr = base_str +:+ apostrophes (Z.to_nat v))
  /\ rehe_mark_text 0x13 = "A'"
  /\ (forall (ticks t : Z) (marks : list (Z * string)) (rest : list Z),
        rehe_step (ticks, marks)
          (Msg t (sequencer_specific (0x43 :: 0x7B :: 0x02 :: rr :: rest)))
        = (ticks + t, marks ++ [(ticks + t, rehe_mark_text rr)]))
  /\ (forall (ticks t : Z) (marks : list (Z * string)),
        rehe_step (ticks, marks) (Msg t (sequencer_specific [0x43; 0x7B; 0x02]))
        = (ticks + t, marks)).
Proof.
  intros i v.
  assert (Z.land rr 0x0F = i) as Hi.
  { change 0x0F with (Z.ones 4). by rewrite Z.land_ones by lia. }
  assert (Z.land (Z.shiftr rr 4) 0x07 = v) as Hv.
  { change 0x07 with (Z.ones 3). rewrite Z.land_ones by lia.
    by rewrite Z.shiftr_div_pow2 by lia. }
  assert (0 <= i < 16) as Hri by (apply Z.mod_pos_bound; reflexivity).
  assert (0 <= v < 8) as Hrv by (apply Z.mod_pos_bound; reflexivity).
  split; [lia|]. split; [lia|]. split; [|split; [|split]].
  - exists (default "?" (XF_REHE_BASE !! i)). split.
    + by apply XF_REHE_BASE_labels.
    + unfold rehe_mark_text. rewrite Hi, Hv. unfold Py.str_mul.
      by rewrite repeat_nat_apostrophes.
  - vm_compute. reflexivity.
  - intros ticks t marks rest. unfold rehe_step.
    cbn [kind time]. rewrite xf_event_cons. reflexivity.
  - intros ticks t marks. unfold rehe_step.
    cbn [kind time]. rewrite xf_event_cons. reflexivity.
Qed.

(** ** The matcher *)

(** A successful match hands to its continuation a position that is not
    before the one it started from. *)
Lemma lit_go_length (l : string) (prev prev' : option ascii) (s s' : string) :
  Re.lit_go l prev s = Some (prev', s') -> (String.length s' <= String.length s)%nat.
Proof.
  revert prev s. induction l as [|a l IH]; intros prev s; simpl.
  - intros [= _ <-]. lia.
  - destruct s as [|c s]; [discriminate|].
    destruct (Ascii.eqb a c); [|discriminate].
    intros H. apply (IH (Some c) s) in H. simpl. lia.
Qed.

Lemma star_go_reaches {A} (p : ascii -> bool)
    (k : option ascii -> string -> option A) (prev : option ascii) (s : string) (x : A) :
  Re.star_go p k prev s = Some x ->
  exists prev' s', k prev' s' = Some x /\ (String.length s' <= String.length s)%nat.
Proof.
  revert prev. induction s as [|c s IH]; intros prev; simpl.
  - intros H. by exists prev, "".
  - destruct (p c).
    + destruct (Re.star_go p k (Some c) s) as [y|] eqn:E.
      * intros [= ->]. destruct (IH _ E) as (p' & s' & Hk & Hl).
        exists p', s'. split; [assumption | lia].
      * intros H. exists prev, (String c s). split; [assumption | simpl; lia].
    + intros H. exists prev, (String c s). split; [assumption | simpl; lia].
Qed.

Lemma rmatch_reaches {A} (r : Re.regex)
    (k : option ascii -> string -> option A) (prev : option ascii) (s : string) (x : A) :
  Re.rmatch r k prev s = Some x ->
  exists prev' s', k prev' s' = Some x /\ (String.length s' <= String.length s)%nat.
Proof.
  revert k prev s.
  induction r as [|p|l|r1 IH1 r2 IH2|r1 IH1 r2 IH2|r1 IH1|p|]; intros k prev s; simpl.
  - intros H. by exists prev, s.
  - destruct s as [|c s]; [discriminate|]. destruct (p c); [|discriminate].
    intros H. exists (Some c), s. split; [assumption | simpl; lia].
  - destruct (Re.lit_go l prev s) as [[prev' s']|] eqn:E; [|discriminate].
    intros H. exists prev', s'. split; [assumption|]. by eapply lit_go_length.
  - intros H. destruct (IH1 _ _ _ H) as (p1 & s1 & H1 & Hl1).
    destruct (IH2 _ _ _ H1) as (p2 & s2 & H2 & Hl2).
    exists p2, s2. split; [assumption | lia].
  - destruct (Re.rmatch r1 k prev s) as [y|] eqn:E.
    + intros [= ->]. exact (IH1 _ _ _ E).
    + apply IH2.
  - destruct (Re.rmatch r1 k prev s) as [y|] eqn:E.
    + intros [= ->]. exact (IH1 _ _ _ E).
    + intros H. by exists prev, s.
  - apply star_go_reaches.
  - destruct (Re.at_boundary prev s); [|discriminate].
    intros H. by exists prev, s.
Qed.

Lemma consumed_nonempty (s1 s2 : string) :
  (String.length s2 < String.length s1)%nat -> Re.consumed s1 s2 <> "".
Proof.
  intros Hl. unfold Re.consumed.
  destruct s1 as [|c s1]; simpl in *; [lia|].
  destruct (S (String.length s1) - String.length s2)%nat as [|n] eqn:E; [lia|].
  simpl. discriminate.
Qed.

(** The candidate of the text heuristic is never empty: group 1 starts
    with a note letter. *)
Lemma chord_text_match_at_nonempty (prev : option ascii) (s g : string) :
  chord_text_match_at prev s = Some g -> g <> "".
Proof.
  unfold chord_text_match_at. intros H.
  apply rmatch_reaches in H as (p1 & s1 & H & _).
  change chord_text_group with
    (Re.Cat (Re.Class is_A_to_G)
       (match chord_text_group with Re.Cat _ r => r | _ => Re.Empty end)) in H.
  cbn [Re.rmatch] in H.
  destruct s1 as [|c s1]; [discriminate|].
  destruct (is_A_to_G c); [|discriminate].
  apply rmatch_reaches in H as (p2 & s2 & H & Hl).
  cbn [Re.rmatch] in H. destruct (Re.at_boundary p2 s2); [|discriminate].
  injection H as <-. apply consumed_nonempty. simpl. lia.
Qed.

Lemma chord_text_search_nonempty (text g : string) :
  chord_text_search text = Some g -> g <> "".
Proof.
  unfold chord_text_search. generalize (@None ascii).
  induction text as [|c text IH]; intros prev; cbn [chord_text_search_from].
  - destruct (chord_text_match_at prev "") as [g'|] eqn:E; [|discriminate].
    intros [= ->]. by eapply chord_text_match_at_nonempty.
  - destruct (chord_text_match_at prev (String c text)) as [g'|] eqn:E.
    + intros [= ->]. by eapply chord_text_match_at_nonempty.
    + apply IH.
Qed.

(** ** The chord scan *)

Section ChordScanProperties.

Context {chord_symbol : Type}.
Variable harmony_ChordSymbol : string -> option chord_symbol.
Variable harmony_NoChord : chord_symbol.
Variable truthy : chord_symbol -> bool.

#[local] Abbreviation current_text := (current_chord_text harmony_ChordSymbol).
#[local] Abbreviation step := (chord_step harmony_ChordSymbol harmony_NoChord truthy).
#[local] Abbreviation loop := (chord_loop harmony_ChordSymbol harmony_NoChord truthy).
#[local] Abbreviation place := (place_chord harmony_ChordSymbol harmony_NoChord truthy).

Lemma chord_text_search_empty : chord_text_search "" = None.
Proof. reflexivity. Qed.

(** A text event with a candidate: the candidate alone decides. *)
Lemma current_chord_text_of_text (t : Z) (type : text_type) (txt candidate : string) :
  chord_text_search (Py.strip txt) = Some candidate ->
  current_text (Msg t (text_meta type txt))
  = match harmony_ChordSymbol candidate with
    | Some _ => Some candidate
    | None => None
    end.
Proof.
  intros Hc. unfold current_chord_text. cbn [kind].
  destruct (String.eqb_spec (Py.strip txt) "") as [He|_].
  - rewrite He, chord_text_search_empty in Hc. discriminate.
  - by rewrite Hc.
Qed.

Lemma chord_step_no_text (q : Z) (st : Z * list placed_chord) (msg : message) :
  current_text msg = None -> step q st msg = (st.1 + time msg, st.2).
Proof. intros H. destruct st as [ticks chords]. unfold chord_step. by rewrite H. Qed.

Lemma chord_step_text (q : Z) (st : Z * list placed_chord) (msg : message) (c : string) :
  current_text msg = Some c -> c <> "" ->
  step q st msg = (st.1 + time msg, place q (st.1 + time msg) c st.2).
Proof.
  intros H Hne. destruct st as [ticks chords]. unfold chord_step. rewrite H.
  by destruct (String.eqb_spec c "").
Qed.

(** An event that fails to decode adds no chord. *)
Lemma decode_failure_skipped (q : Z) (st : Z * list placed_chord) (msg : message) :
  decode_failure harmony_ChordSymbol msg ->
  step q st msg = (st.1 + time msg, st.2).
Proof.
  intros [data payload Hk Hx Hd | type txt c Hk Hc Hv | c Hc Hnc Hn].
  - apply chord_step_no_text. unfold current_chord_text. rewrite Hk, Hx.
    rewrite Z.eqb_refl, Hd. by destruct (filter _ payload).
  - apply chord_step_no_text. destruct msg as [t k]. cbn [kind] in Hk. subst k.
    rewrite (current_chord_text_of_text t type txt c Hc). by rewrite Hv.
  - destruct st as [ticks chords]. unfold chord_step. rewrite Hc.
    destruct (String.eqb c ""); [reflexivity|].
    unfold place_chord. destruct (String.eqb_spec c "N.C."); [done|].
    by rewrite Hn.
Qed.

(** The scan treats a message that adds no chord as it treats any
    message of the same delta time that carries no chord. *)
Lemma chord_loop_skips (q : Z) (st : Z * list placed_chord)
    (pre post : list message) (msg : message) :
  (forall st', step q st' msg = (st'.1 + time msg, st'.2)) ->
  loop q st (pre ++ msg :: post) = loop q st (pre ++ silenced msg :: post).
Proof.
  intros Hskip. unfold chord_loop. rewrite !foldl_app. cbn [foldl].
  rewrite Hskip. f_equal. by destruct (foldl _ st pre).
Qed.

(** C9 (amended).  In a text event, the candidate is the first match of
    the chord pattern in the stripped text, and it alone is given to the
    validator.  If the validator refuses it, the event yields no chord
    text and adds no chord, whatever the rest of the text contains, and
    the scan goes on with the next message; if the validator accepts it,
    the candidate is the chord text of the event and the chord is built
    from it. *)
Theorem text_candidate_validation
    (q t : Z) (type : text_type) (txt candidate : string) :
  chord_text_search (Py.strip txt) = Some candidate ->
  let msg := Msg t (text_meta type txt) in
  (harmony_ChordSymbol candidate = None ->
     current_text msg = None
     /\ (forall st, step q st msg = (st.1 + t, st.2))
     /\ (forall st pre post,
           loop q st (pre ++ msg :: post) = loop q st (pre ++ silenced msg :: post)))
  /\ (is_Some (harmony_ChordSymbol candidate) ->
        current_text msg = Some candidate
        /\ (forall st, step q st msg
                       = (st.1 + t, place q (st.1 + t) candidate st.2))).
Proof.
  intros Hc msg. pose proof (current_chord_text_of_text t type txt candidate Hc) as Hcur.
  split.
  - intros Hv. rewrite Hv in Hcur.
    assert (forall st, step q st msg = (st.1 + time msg, st.2)) as Hskip
      by (intros st; by apply chord_step_no_text).
    split; [assumption|]. split; [exact Hskip|].
    intros st pre post. by apply chord_loop_skips.
  - intros [o Ho]. rewrite Ho in Hcur. split; [assumption|].
    intros st. apply (chord_step_text q st msg candidate Hcur).
    by eapply chord_text_search_nonempty.
Qed.

(** C10 (amended).  When the file cannot be opened, the chord scan and
    the rehearsal scan catch the failure and return an empty list; only
    the melody scan lets it propagate.  An event of the chord scan that
    fails to decode (unrecognized XF chord bytes, a candidate refused by
    the validator, a figure refused by the chord constructor) adds no
    chord and the scan continues with the following messages. *)
Theorem open_failure_and_decode_failures
    (mido_MidiFile : file_system) (midi_path : string) (q : Z) :
  mido_MidiFile midi_path = None ->
  _parse_chords_from_midi harmony_ChordSymbol harmony_NoChord truthy
    mido_MidiFile midi_path q = Returned []
  /\ _parse_rehe_from_midi mido_MidiFile midi_path q = Returned []
  /\ _parse_melody_with_mido mido_MidiFile midi_path q = Raised
  /\ (forall msg : message,
        decode_failure harmony_ChordSymbol msg ->
        (forall st, step q st msg = (st.1 + time msg, st.2))
        /\ (forall st pre post,
              loop q st (pre ++ msg :: post)
              = loop q st (pre ++ silenced msg :: post))).
Proof.
  intros Hopen.
  unfold _parse_chords_from_midi, _parse_rehe_from_midi, _parse_melody_with_mido.
  rewrite Hopen. repeat split.
  - intros st. by apply decode_failure_skipped.
  - intros st pre post. apply chord_loop_skips.
    intros st'. by apply decode_failure_skipped.
Qed.

End ChordScanProperties.

(** C9, as stated, fails: with a validator that accepts "Cmaj7" only, the
    text "E_ Cmaj7" has the first candidate "E_", which is refused, and
    the event yields no chord although "Cmaj7", later in the text, is a
    candidate that the validator accepts. *)
Lemma later_candidate_is_not_tried :
  chord_text_search (Py.strip "E_ Cmaj7") = Some "E_"
  /\ only_Cmaj7 "E_" = None
  /\ chord_text_search "Cmaj7" = Some "Cmaj7"
  /\ only_Cmaj7 "Cmaj7" = Some "Cmaj7"
  /\ current_chord_text only_Cmaj7 (Msg 0 (text_meta text "E_ Cmaj7")) = None
  /\ _parse_chords_from_midi only_Cmaj7 "N.C." (fun _ => true)
       (fun _ => Some {| ticks_per_beat := 480;
                         merge_tracks := [Msg 0 (text_meta text "E_ Cmaj7")] |})
       "song.mid" 480
     = Returned [].
Proof. repeat split; vm_compute; reflexivity. Qed.

Lemma text_candidate_validation_witness :
  current_chord_text only_Cmaj7 (Msg 0 (text_meta lyrics "E_ Cmaj7")) = None.
Proof.
  refine (proj1 (proj1 (text_candidate_validation only_Cmaj7 "N.C." (fun _ => true)
                          480 0 lyrics "E_ Cmaj7" "E_" _) _)).
  - vm_compute; reflexivity.
  - reflexivity.
Defined.

(** C10, as stated, fails: when the file cannot be opened, the chord scan
    and the rehearsal scan do not abort, they return an empty list. *)
Lemma open_failure_returns_empty :
  no_files "missing.mid" = None
  /\ _parse_chords_from_midi only_Cmaj7 "N.C." (fun _ => true)
       no_files "missing.mid" 480 = Returned []
  /\ _parse_chords_from_midi only_Cmaj7 "N.C." (fun _ => true)
       no_files "missing.mid" 480 <> Raised
  /\ _parse_rehe_from_midi no_files "missing.mid" 480 = Returned []
  /\ _parse_rehe_from_midi no_files "missing.mid" 480 <> Raised.
Proof. repeat split; discriminate. Qed.

Lemma open_failure_and_decode_failures_witness :
  _parse_chords_from_midi only_Cmaj7 "N.C." (fun _ => true)
    no_files "missing.mid" 480 = Returned []
  /\ _parse_melody_with_mido no_files "missing.mid" 480 = Raised.
Proof.
  pose proof (open_failure_and_decode_failures only_Cmaj7 "N.C." (fun _ => true)
                no_files "missing.mid" 480) as H.
  destruct H as (H1 & _ & H3 & _).
  - reflexivity.
  - split; [exact H1 | exact H3].
Defined.

(** ** The chord-figure normalizer *)

Lemma parse_note_byte_in_names (note_byte : Z) (s : string) :
  parse_note_byte note_byte = Some s -> s ∈ note_names.
Proof.
  unfold parse_note_byte. destruct (note_byte =? 127); [discriminate|].
  destruct (XF_ROOT_DISP !! _) as [d|] eqn:Ed; [|discriminate].
  destruct (XF_ROOT_NOTE !! _) as [n|] eqn:En; [|discriminate].
  intros [= <-]. unfold note_names.
  apply list_elem_of_bind. exists n. split.
  - apply list_elem_of_bind. exists d. split; [apply list_elem_of_singleton; reflexivity|].
    by eapply gmap_value_elem.
  - by eapply gmap_value_elem.
Qed.

Lemma decode_fields_shape (cr ct bn : Z) (figure : string) :
  decode_fields cr ct bn = Some figure ->
  figure = "N.C."
  \/ exists r t, r ∈ note_names /\ t ∈ type_names
       /\ (figure = r +:+ t
           \/ exists b, b ∈ note_names /\ figure = r +:+ t +:+ "/" +:+ b).
Proof.
  unfold decode_fields.
  destruct (XF_CHORD_TYPES !! ct) as [t|] eqn:Et; [|discriminate].
  destruct (String.eqb t "N.C."); [intros [= <-]; by left|].
  destruct (parse_note_byte cr) as [r|] eqn:Er; [|discriminate].
  intros H. right. exists r, t.
  split; [by eapply parse_note_byte_in_names|].
  split.
  { by eapply gmap_value_elem. }
  destruct (parse_note_byte bn) as [b|] eqn:Eb.
  - destruct (negb _); injection H as <-; [|by left].
    right. exists b. split; [by eapply parse_note_byte_in_names | reflexivity].
  - injection H as <-. by left.
Qed.

Lemma decode_length (chord_bytes : list Z) (figure : string) :
  _parse_xf_chord_sysex chord_bytes = Some figure ->
  (2 <= length chord_bytes <= 4)%nat.
Proof.
  unfold _parse_xf_chord_sysex.
  destruct (2 <=? length chord_bytes)%nat eqn:E1;
    destruct (length chord_bytes <=? 4)%nat eqn:E2; try discriminate.
  intros _. apply Nat.leb_le in E1, E2. lia.
Qed.

(** *** Text on either side of a '/' is rewritten on its own *)

Lemma star_go_ext {A} (p : ascii -> bool) (k1 k2 : option ascii -> string -> option A) :
  (forall q s, k1 q s = k2 q s) ->
  forall prev s, Re.star_go p k1 prev s = Re.star_go p k2 prev s.
Proof.
  intros Hk prev s. revert prev. induction s as [|c s IH]; intros prev; simpl.
  - apply Hk.
  - rewrite IH, Hk. reflexivity.
Qed.

Lemma rmatch_ext {A} (r : Re.regex) (k1 k2 : option ascii -> string -> option A) :
  (forall q s, k1 q s = k2 q s) ->
  forall prev s, Re.rmatch r k1 prev s = Re.rmatch r k2 prev s.
Proof.
  revert k1 k2.
  induction r as [|p|l|r1 IH1 r2 IH2|r1 IH1 r2 IH2|r1 IH1|p|]; intros k1 k2 Hk prev s; simpl.
  - apply Hk.
  - destruct s as [|c s]; [reflexivity|]. by rewrite Hk.
  - destruct (Re.lit_go l prev s) as [[q s']|]; [apply Hk | reflexivity].
  - apply IH1. intros q s'. by apply IH2.
  - by rewrite (IH1 k1 k2 Hk), (IH2 k1 k2 Hk).
  - by rewrite (IH1 k1 k2 Hk), Hk.
  - by apply star_go_ext.
  - by rewrite Hk.
Qed.

Lemma star_go_map {A B} (f : A -> B) (p : ascii -> bool)
    (k : option ascii -> string -> option A) (prev : option ascii) (s : string) :
  Re.star_go p (fun q s' => f <$> k q s') prev s = f <$> Re.star_go p k prev s.
Proof.
  revert prev. induction s as [|c s IH]; intros prev; simpl; [reflexivity|].
  destruct (p c); [|reflexivity]. rewrite IH.
  by destruct (Re.star_go p k (Some c) s).
Qed.

Lemma rmatch_map {A B} (f : A -> B) (r : Re.regex)
    (k : option ascii -> string -> option A) (prev : option ascii) (s : string) :
  Re.rmatch r (fun q s' => f <$> k q s') prev s = f <$> Re.rmatch r k prev s.
Proof.
  revert k prev s.
  induction r as [|p|l|r1 IH1 r2 IH2|r1 IH1 r2 IH2|r1 IH1|p|]; intros k prev s; simpl.
  - reflexivity.
  - destruct s as [|c s]; [reflexivity|]. by destruct (p c).
  - by destruct (Re.lit_go l prev s) as [[q s']|].
  - rewrite <- IH1. apply rmatch_ext. intros q s'. apply IH2.
  - rewrite IH1, IH2. by destruct (Re.rmatch r1 k prev s).
  - rewrite IH1. by destruct (Re.rmatch r1 k prev s).
  - apply star_go_map.
  - by destruct (Re.at_boundary prev s).
Qed.

Lemma append_cons (c : ascii) (s t : string) : String c s +:+ t = String c (s +:+ t).
Proof. reflexivity. Qed.

Lemma append_nil_l (t : string) : "" +:+ t = t.
Proof. reflexivity. Qed.

Lemma length_append (s t : string) :
  String.length (s +:+ t) = (String.length s + String.length t)%nat.
Proof.
  induction s as [|c s IH]; [reflexivity|].
  rewrite append_cons. simpl. by rewrite IH.
Qed.

Lemma substring_append (s t : string) (n : nat) :
  (n <= String.length s)%nat -> substring 0 n (s +:+ t) = substring 0 n s.
Proof.
  revert n. induction s as [|c s IH]; intros n Hn; simpl in Hn.
  - assert (n = 0%nat) as -> by lia. by destruct t.
  - rewrite append_cons. destruct n as [|n]; [reflexivity|].
    simpl. rewrite IH by lia. reflexivity.
Qed.

Lemma length_substring (s : string) (n : nat) :
  (n <= String.length s)%nat -> String.length (substring 0 n s) = n.
Proof.
  revert n. induction s as [|c s IH]; intros n Hn; simpl in Hn.
  - by assert (n = 0%nat) as -> by lia.
  - destruct n as [|n]; [reflexivity|]. simpl. rewrite IH by lia. reflexivity.
Qed.

Lemma consumed_append (s rest t : string) :
  (String.length rest <= String.length s)%nat ->
  Re.consumed (s +:+ t) (rest +:+ t) = Re.consumed s rest.
Proof.
  intros Hl. unfold Re.consumed. rewrite !length_append.
  replace (String.length s + String.length t - (String.length rest + String.length t))%nat
    with (String.length s - String.length rest)%nat by lia.
  apply substring_append. lia.
Qed.

Lemma length_consumed (s rest : string) :
  String.length (Re.consumed s rest) = (String.length s - String.length rest)%nat.
Proof. unfold Re.consumed. apply length_substring. lia. Qed.

Lemma at_boundary_slash (prev : option ascii) (L R : string) :
  Re.at_boundary prev (L +:+ String "/" R) = Re.at_boundary prev L.
Proof. destruct L; reflexivity. Qed.

Lemma lit_go_slash (l : string) (prev : option ascii) (L R : string) :
  contains_char "/" l = false ->
  Re.lit_go l prev (L +:+ String "/" R)
  = (fun qs : option ascii * string => (qs.1, qs.2 +:+ String "/" R)) <$> Re.lit_go l prev L.
Proof.
  revert prev L. induction l as [|a l IH]; intros prev L Hl; [reflexivity|].
  simpl in Hl. apply orb_false_elim in Hl as [Ha Hl].
  destruct L as [|c L].
  - rewrite append_nil_l. simpl. by rewrite Ha.
  - rewrite append_cons. simpl. destruct (Ascii.eqb a c); [by apply IH | reflexivity].
Qed.

Lemma star_go_slash {A} (p : ascii -> bool) (k : option ascii -> string -> option A)
    (prev : option ascii) (L R : string) :
  p "/"%char = false ->
  Re.star_go p k prev (L +:+ String "/" R)
  = Re.star_go p (fun q s => k q (s +:+ String "/" R)) prev L.
Proof.
  intros Hp. revert prev. induction L as [|c L IH]; intros prev.
  - rewrite append_nil_l. simpl. by rewrite Hp.
  - rewrite append_cons. simpl. rewrite IH. reflexivity.
Qed.

Lemma rmatch_slash {A} (r : Re.regex) (k : option ascii -> string -> option A)
    (prev : option ascii) (L R : string) :
  slash_free r = true ->
  Re.rmatch r k prev (L +:+ String "/" R)
  = Re.rmatch r (fun q s => k q (s +:+ String "/" R)) prev L.
Proof.
  revert k prev L.
  induction r as [|p|l|r1 IH1 r2 IH2|r1 IH1 r2 IH2|r1 IH1|p|]; intros k prev L Hr;
    simpl in Hr; cbn [Re.rmatch].
  - reflexivity.
  - apply negb_true_iff in Hr. destruct L as [|c L].
    + rewrite append_nil_l. by rewrite Hr.
    + by rewrite append_cons.
  - apply negb_true_iff in Hr. rewrite lit_go_slash by assumption.
    by destruct (Re.lit_go l prev L) as [[q s]|].
  - apply andb_prop in Hr as [H1 H2]. rewrite IH1 by assumption.
    apply rmatch_ext. intros q s. by apply IH2.
  - apply andb_prop in Hr as [H1 H2]. by rewrite IH1, IH2.
  - by rewrite IH1.
  - apply negb_true_iff in Hr. by apply star_go_slash.
  - by rewrite at_boundary_slash.
Qed.

Lemma sub_from_slash (r : Re.regex) (repl : string -> string) (R : string) :
  slash_free r = true ->
  (forall prev, Re.rmatch r (fun _ rest => Some rest) prev "" = None) ->
  forall (L : string) (skip : nat) (prev : option ascii),
    (skip <= String.length L)%nat ->
    Re.sub_from r repl skip prev (L +:+ String "/" R)
    = Re.sub_from r repl skip prev L
        +:+ String "/" (Re.sub_from r repl 0 (Some "/"%char) R).
Proof.
  intros Hr Hne. induction L as [|c L IH]; intros skip prev Hskip; simpl in Hskip.
  - assert (skip = 0%nat) as -> by lia. rewrite append_nil_l.
    cbn [Re.sub_from]. rewrite append_nil_l.
    change (String "/" R) with ("" +:+ String "/" R) at 1.
    rewrite (rmatch_slash r _ prev "" R Hr).
    rewrite (rmatch_map (fun s => s +:+ String "/" R) r (fun _ rest => Some rest)).
    by rewrite Hne.
  - rewrite append_cons. cbn [Re.sub_from]. destruct skip as [|skip].
    + rewrite <- append_cons.
      rewrite (rmatch_slash r _ prev (String c L) R Hr).
      rewrite (rmatch_map (fun s => s +:+ String "/" R) r (fun _ rest => Some rest)).
      destruct (Re.rmatch r (fun _ rest => Some rest) prev (String c L)) as [rest|] eqn:E.
      * cbn [fmap option_fmap option_map].
        apply rmatch_reaches in E as (q & s' & [= ->] & Hl).
        rewrite consumed_append by assumption.
        rewrite IH by (rewrite length_consumed; simpl in *; lia).
        by rewrite string_app_assoc.
      * cbn [fmap option_fmap option_map]. rewrite IH by lia. reflexivity.
    + apply IH. lia.
Qed.

Lemma prefix_slash (p L R : string) :
  contains_char "/" p = false ->
  String.prefix p (L +:+ String "/" R) = String.prefix p L.
Proof.
  revert L. induction p as [|a p IH]; intros L Hp; [by destruct L|].
  simpl in Hp. apply orb_false_elim in Hp as [Ha Hp].
  destruct L as [|c L].
  - rewrite append_nil_l. simpl.
    destruct (ascii_dec a "/") as [->|]; [|reflexivity].
    rewrite Ascii.eqb_refl in Ha. discriminate Ha.
  - rewrite append_cons. simpl. destruct (ascii_dec a c); [by apply IH | reflexivity].
Qed.

Lemma prefix_length (p s : string) :
  String.prefix p s = true -> (String.length p <= String.length s)%nat.
Proof.
  revert s. induction p as [|a p IH]; intros s; [simpl; lia|].
  destruct s as [|c s]; [done|]. simpl.
  destruct (ascii_dec a c); [|done].
  intros H. apply IH in H. lia.
Qed.

Lemma replace_from_slash (old new R : string) :
  old <> "" ->
  contains_char "/" old = false ->
  forall (L : string) (skip : nat),
    (skip <= String.length L)%nat ->
    Py.replace_from old new skip (L +:+ String "/" R)
    = Py.replace_from old new skip L +:+ String "/" (Py.replace_from old new 0 R).
Proof.
  intros Hne Hold. induction L as [|c L IH]; intros skip Hskip; simpl in Hskip.
  - assert (skip = 0%nat) as -> by lia. rewrite append_nil_l.
    cbn [Py.replace_from]. rewrite append_nil_l.
    change (String "/" R) with ("" +:+ String "/" R) at 1.
    rewrite prefix_slash by assumption.
    destruct old; [done | reflexivity].
  - rewrite append_cons. cbn [Py.replace_from]. destruct skip as [|skip].
    + rewrite <- append_cons. rewrite prefix_slash by assumption.
      destruct (String.prefix old (String c L)) eqn:E.
      * apply prefix_length in E. simpl in E.
        rewrite IH by lia. by rewrite string_app_assoc.
      * rewrite IH by lia. reflexivity.
    + apply IH. lia.
Qed.

Lemma replace_slash (old new L R : string) :
  old <> "" ->
  contains_char "/" old = false ->
  Py.replace old new (L +:+ String "/" R)
  = Py.replace old new L +:+ String "/" (Py.replace old new R).
Proof. intros H1 H2. unfold Py.replace. apply replace_from_slash; [done|done|lia]. Qed.

Lemma note_name_regex_prev {A} (k : option ascii -> string -> option A) (s : string) :
  Re.rmatch note_name_regex k (Some "/"%char) s = Re.rmatch note_name_regex k None s.
Proof. reflexivity. Qed.

Lemma note_name_regex_nonempty (prev : option ascii) :
  Re.rmatch note_name_regex (fun _ rest => Some rest) prev "" = None.
Proof.
  unfold note_name_regex. cbn [Re.cat foldr Re.rmatch].
  by destruct (Re.at_boundary prev "").
Qed.

Lemma sub_note_names_slash (L R : string) :
  Re.sub note_name_regex simplify_enharmonics (L +:+ String "/" R)
  = Re.sub note_name_regex simplify_enharmonics L
      +:+ String "/" (Re.sub note_name_regex simplify_enharmonics R).
Proof.
  unfold Re.sub.
  rewrite sub_from_slash; [|reflexivity|apply note_name_regex_nonempty|lia].
  do 2 f_equal. destruct R as [|c R]; [reflexivity|].
  cbn [Re.sub_from]. by rewrite note_name_regex_prev.
Qed.

Lemma normalize_steps_slash (L R : string) :
  normalize_steps (L +:+ String "/" R)
  = normalize_steps L +:+ String "/" (normalize_steps R).
Proof.
  unfold normalize_steps. cbv zeta.
  rewrite sub_note_names_slash.
  by rewrite !replace_slash.
Qed.

Lemma normalize_with_slash (L R : string) :
  _normalize_chord_figure (L +:+ String "/" R)
  = normalize_steps L +:+ String "/" (normalize_steps R).
Proof.
  rewrite <- normalize_steps_slash. unfold _normalize_chord_figure.
  destruct (String.eqb_spec (L +:+ String "/" R) "") as [E|_].
  { destruct L; discriminate. }
  destruct (String.eqb_spec (L +:+ String "/" R) "N.C.") as [E|_]; [|reflexivity].
  exfalso. assert (contains_char "/" (L +:+ String "/" R) = true) as Hc.
  { rewrite contains_char_app. simpl. apply orb_true_r. }
  rewrite E in Hc. discriminate.
Qed.

Lemma decoded_figures_all_checked : decoded_figures_checked = true.
Proof. vm_compute. reflexivity. Qed.

(** C7, as stated, fails: normalizing "Fb#m" gives "E#m", and normalizing
    "E#m" gives "Fm". *)
Lemma normalize_twice_differs :
  _normalize_chord_figure "Fb#m" = "E#m"
  /\ _normalize_chord_figure (_normalize_chord_figure "Fb#m") = "Fm"
  /\ _normalize_chord_figure (_normalize_chord_figure "Fb#m")
     <> _normalize_chord_figure "Fb#m".
Proof.
  split; [|split].
  - vm_compute. reflexivity.
  - vm_compute. reflexivity.
  - vm_compute. discriminate.
Qed.

(** C7 (amended).  On every figure that the binary chord decoder returns,
    normalizing the normalized figure changes nothing. *)
Theorem normalize_idempotent_on_decoded (chord_bytes : list Z) (figure : string) :
  _parse_xf_chord_sysex chord_bytes = Some figure ->
  _normalize_chord_figure (_normalize_chord_figure figure)
  = _normalize_chord_figure figure.
Proof.
  intros Hdec.
  destruct (decode_by_length _ (decode_length _ _ Hdec)) as (cr & ct & rest & _ & _ & Hf).
  rewrite Hf in Hdec. apply decode_fields_shape in Hdec.
  destruct Hdec as [->|(r & t & Hr & Ht & Hfig)]; [reflexivity|].
  pose proof decoded_figures_all_checked as Hall. unfold decoded_figures_checked in Hall.
  rewrite forallb_forall in Hall.
  assert (forall b, b ∈ note_names -> steps_twice_same b = true) as Hbass.
  { intros b Hb. specialize (Hall b (proj1 (list_elem_of_In _ _) Hb)).
    by apply andb_prop in Hall as [? _]. }
  specialize (Hall r (proj1 (list_elem_of_In _ _) Hr)).
  apply andb_prop in Hall as [_ Hall].
  rewrite forallb_forall in Hall. specialize (Hall t (proj1 (list_elem_of_In _ _) Ht)).
  apply andb_prop in Hall as [H1 H2].
  destruct Hfig as [->|(b & Hb & ->)].
  - by apply String.eqb_eq.
  - apply String.eqb_eq in H2. pose proof (Hbass b Hb) as H3. apply String.eqb_eq in H3.
    rewrite <- string_app_assoc.
    change ("/" +:+ b) with (String "/" b).
    rewrite !normalize_with_slash. by rewrite H2, H3.
Qed.

Lemma normalize_idempotent_on_decoded_witness :
  _normalize_chord_figure (_normalize_chord_figure "Ebm(maj7,9)/Cb")
  = _normalize_chord_figure "Ebm(maj7,9)/Cb".
Proof.
  apply (normalize_idempotent_on_decoded [0x23; 0x10; 0x21]).
  vm_compute; reflexivity.
Defined.

(** * Further properties *)

(** ** The binary chord decoder *)

Lemma starts_with_note_letter_app (s t : string) :
  starts_with_note_letter s = true -> starts_with_note_letter (s +:+ t) = true.
Proof. destruct s as [|c s]; [discriminate|]. by intros H. Qed.

Lemma note_names_start_with_letter (r : string) :
  r ∈ note_names -> starts_with_note_letter r = true.
Proof.
  revert r. apply Forall_forall. compute_done.
Qed.

Lemma decode_starts_with_letter (chord_bytes : list Z) (figure : string) :
  _parse_xf_chord_sysex chord_bytes = Some figure ->
  figure = "N.C." \/ starts_with_note_letter figure = true.
Proof.
  intros Hdec.
  destruct (decode_by_length _ (decode_length _ _ Hdec)) as (cr & ct & rest & _ & _ & Hf).
  rewrite Hf in Hdec. apply decode_fields_shape in Hdec.
  destruct Hdec as [->|(r & t & Hr & _ & Hfig)]; [by left|right].
  apply note_names_start_with_letter in Hr.
  destruct Hfig as [->|(b & _ & ->)]; by apply starts_with_note_letter_app.
Qed.

Lemma decode_nonempty (chord_bytes : list Z) (figure : string) :
  _parse_xf_chord_sysex chord_bytes = Some figure -> figure <> "".
Proof.
  intros Hdec. destruct (decode_starts_with_letter _ _ Hdec) as [->|H]; [discriminate|].
  intros ->. discriminate.
Qed.

(** An XF chord event whose bytes decode goes on to the construction of
    the chord. *)
Lemma xf_chord_event_step
    {chord_symbol : Type} (harmony_ChordSymbol : string -> option chord_symbol)
    (harmony_NoChord : chord_symbol) (truthy : chord_symbol -> bool)
    (q t : Z) (st : Z * list placed_chord) (payload chord_bytes : list Z)
    (figure : string) :
  filter (fun b => b ≠ 0x7F) payload = chord_bytes ->
  _parse_xf_chord_sysex chord_bytes = Some figure ->
  chord_step harmony_ChordSymbol harmony_NoChord truthy q st
    (Msg t (sequencer_specific (0x43 :: 0x7B :: 0x01 :: payload)))
  = (st.1 + t,
     place_chord harmony_ChordSymbol harmony_NoChord truthy q (st.1 + t) figure st.2).
Proof.
  intros Hpayload Hdec.
  apply (chord_step_text harmony_ChordSymbol harmony_NoChord truthy q st
           (Msg t (sequencer_specific (0x43 :: 0x7B :: 0x01 :: payload))) figure);
    [|by eapply decode_nonempty].
  unfold current_chord_text. cbn [kind]. rewrite xf_event_cons.
  change (0x01 =? XF_CHORD_ID) with true. cbv iota. rewrite Hpayload.
  pose proof (decode_length _ _ Hdec) as Hlen.
  destruct chord_bytes; [simpl in Hlen; lia | assumption].
Qed.

(** X1.  A figure returned by the decoder is never empty: it is "N.C." or
    starts with a note letter A to G.  So the chord scan never drops a
    decoded figure in its truth test: an XF chord event whose bytes, once
    the 0x7F fillers are removed, decode to a figure always reaches the
    construction of the chord with that figure. *)
Theorem decoded_figure_reaches_construction
    (chord_bytes : list Z) (figure : string) :
  _parse_xf_chord_sysex chord_bytes = Some figure ->
  figure <> ""
  /\ (figure = "N.C." \/ starts_with_note_letter figure = true)
  /\ (forall (chord_symbol : Type)
             (harmony_ChordSymbol : string -> option chord_symbol)
             (harmony_NoChord : chord_symbol) (truthy : chord_symbol -> bool)
             (q t : Z) (st : Z * list placed_chord) (payload : list Z),
        filter (fun b => b ≠ 0x7F) payload = chord_bytes ->
        chord_step harmony_ChordSymbol harmony_NoChord truthy q st
          (Msg t (sequencer_specific (0x43 :: 0x7B :: 0x01 :: payload)))
        = (st.1 + t,
           place_chord harmony_ChordSymbol harmony_NoChord truthy q (st.1 + t)
             figure st.2)).
Proof.
  intros Hdec.
  split; [by eapply decode_nonempty|]. split; [by eapply decode_starts_with_letter|].
  intros chord_symbol CS NC truthy q t st payload Hpayload.
  by apply xf_chord_event_step with (chord_bytes := chord_bytes).
Qed.

Lemma decoded_figure_reaches_construction_witness :
  chord_step only_Cmaj7 "N.C." (fun _ => true) 480 (0, [])
    (Msg 96 (sequencer_specific [0x43; 0x7B; 0x01; 0x31; 0x02; 0x7F; 0x7F]))
  = (0 + 96, place_chord only_Cmaj7 "N.C." (fun _ => true) 480 (0 + 96) "Cmaj7" []).
Proof.
  refine (proj2 (proj2 (decoded_figure_reaches_construction [0x31; 0x02] "Cmaj7" _))
            string only_Cmaj7 "N.C." (fun _ => true) 480 96 (0, [])
            [0x31; 0x02; 0x7F; 0x7F] _).
  - vm_compute; reflexivity.
  - vm_compute; reflexivity.
Defined.

(** *** Only the low seven bits of a note byte are read *)

Lemma low_bits_of_mod_128 (b : Z) :
  Z.land (Z.shiftr (b mod 128) 4) 7 = Z.land (Z.shiftr b 4) 7
  /\ Z.land (b mod 128) 0x0F = Z.land b 0x0F.
Proof.
  change 7 with (Z.ones 3). change 0x0F with (Z.ones 4).
  rewrite !Z.land_ones, !Z.shiftr_div_pow2 by lia.
  change (2 ^ 4) with 16. change (2 ^ 3) with 8.
  pose proof (Z.rem_mul_r b 16 8 ltac:(lia) ltac:(lia)) as H.
  change (16 * 8) with 128 in H.
  pose proof (Z.mod_pos_bound b 16 ltac:(lia)) as H16.
  pose proof (Z.mod_pos_bound (b / 16) 8 ltac:(lia)) as H8.
  rewrite H. split.
  - rewrite (Z.mul_comm 16), Z.div_add by lia.
    rewrite (Z.div_small (b mod 16) 16) by lia.
    rewrite Z.add_0_l. apply Z.mod_mod. lia.
  - rewrite (Z.mul_comm 16), Z.mod_add by lia. apply Z.mod_mod. lia.
Qed.

(** X2.  The note-byte routine reads only the low seven bits of its byte,
    and so does the decoder for its root and bass bytes (the type byte is
    looked up as it is). *)
Theorem note_byte_low_seven_bits (b : Z) :
  parse_note_byte (b mod 128) = parse_note_byte b
  /\ (forall cr ct bn : Z,
        _parse_xf_chord_sysex [cr mod 128; ct; bn mod 128]
        = _parse_xf_chord_sysex [cr; ct; bn])
  /\ (forall cr ct : Z,
        _parse_xf_chord_sysex [cr mod 128; ct] = _parse_xf_chord_sysex [cr; ct]).
Proof.
  assert (forall z, parse_note_byte (z mod 128) = parse_note_byte z) as Hmask.
  { intros z. unfold parse_note_byte.
    destruct (low_bits_of_mod_128 z) as [Hf Hn]. rewrite Hf, Hn.
    destruct (Z.eqb_spec (z mod 128) 127) as [E|E];
      destruct (Z.eqb_spec z 127) as [E'|E']; try reflexivity.
    - (* z is 127 plus a multiple of 128: its accidental code is 7 *)
      rewrite <- Hf, E. reflexivity.
    - subst z. by vm_compute in E. }
  split; [apply Hmask|]. split.
  - intros cr ct bn. rewrite !decode_three. unfold decode_fields.
    by rewrite !Hmask.
  - intros cr ct. rewrite !decode_two. unfold decode_fields.
    by rewrite !Hmask.
Qed.

(** *** The figure determines the bytes *)

Lemma parse_note_byte_inj (a b : Z) (r : string) :
  0 <= a < 128 -> 0 <= b < 128 ->
  parse_note_byte a = Some r -> parse_note_byte b = Some r -> a = b.
Proof.
  intros Ha Hb H1 H2. revert a Ha b Hb r H1 H2.
  apply (Forall_seqZ_range
           (fun a => forall b, 0 <= b < 128 -> forall r,
              parse_note_byte a = Some r -> parse_note_byte b = Some r -> a = b) 0 128).
  apply Forall_forall. intros a Ha.
  apply (Forall_seqZ_range
           (fun b => forall r,
              parse_note_byte a = Some r -> parse_note_byte b = Some r -> a = b) 0 128).
  revert a Ha. apply Forall_forall.
  assert (Forall (fun a => Forall (fun b =>
            parse_note_byte a = parse_note_byte b ->
            parse_note_byte a = None \/ a = b) (seqZ 0 128)) (seqZ 0 128)) as H.
  { compute_done. }
  eapply Forall_impl; [exact H|]. intros a Hall. cbv beta in Hall.
  eapply Forall_impl; [exact Hall|]. intros b Hab r H1 H2. cbv beta in Hab.
  destruct Hab as [E|E]; [congruence|congruence|done].
Qed.

Lemma XF_CHORD_TYPES_inj (ct ct' : Z) (t : string) :
  XF_CHORD_TYPES !! ct = Some t -> XF_CHORD_TYPES !! ct' = Some t -> ct = ct'.
Proof.
  intros H1 H2. apply elem_of_list_to_map_2 in H1, H2.
  assert (Forall (fun kv : Z * string =>
            Forall (fun kv' : Z * string => kv.2 = kv'.2 -> kv.1 = kv'.1)
              XF_CHORD_TYPES_items) XF_CHORD_TYPES_items) as H by compute_done.
  rewrite Forall_forall in H. specialize (H _ H1).
  rewrite Forall_forall in H. exact (H _ H2 eq_refl).
Qed.

Lemma split_root_names (r t : string) :
  r ∈ note_names -> t ∈ type_names -> split_root (r +:+ t) = (r, t).
Proof.
  intros Hr Ht.
  assert (Forall (fun r => Forall (fun t => split_root (r +:+ t) = (r, t)) type_names)
            note_names) as H by compute_done.
  rewrite Forall_forall in H. specialize (H _ Hr).
  rewrite Forall_forall in H. exact (H _ Ht).
Qed.

Lemma names_no_slash (r t : string) :
  r ∈ note_names -> t ∈ type_names -> contains_char "/" (r +:+ t) = false.
Proof.
  intros Hr Ht.
  assert (Forall (fun r => contains_char "/" r = false) note_names) as H1 by compute_done.
  assert (Forall (fun t => contains_char "/" t = false) type_names) as H2 by compute_done.
  rewrite Forall_forall in H1, H2.
  rewrite contains_char_app, (H1 _ Hr), (H2 _ Ht). reflexivity.
Qed.

Lemma append_slash_inj (L L' R R' : string) :
  contains_char "/" L = false -> contains_char "/" L' = false ->
  L +:+ String "/" R = L' +:+ String "/" R' -> L = L' /\ R = R'.
Proof.
  revert L'. induction L as [|c L IH]; intros [|c' L'] HL HL' E.
  - by injection E as ->.
  - rewrite append_nil_l, append_cons in E. injection E as <- _.
    simpl in HL'. discriminate.
  - rewrite append_nil_l, append_cons in E. injection E as -> _.
    simpl in HL. discriminate.
  - rewrite !append_cons in E. injection E as -> E.
    simpl in HL, HL'. apply orb_false_elim in HL as [_ HL], HL' as [_ HL'].
    destruct (IH L' HL HL' E) as [-> ->]. done.
Qed.

(** The decoder, when its figure is not "N.C.": the names it has put
    together. *)
Lemma decode_fields_names (cr ct bn : Z) (figure : string) :
  decode_fields cr ct bn = Some figure ->
  figure <> "N.C." ->
  exists r t, parse_note_byte cr = Some r /\ XF_CHORD_TYPES !! ct = Some t
    /\ (figure = r +:+ t
        \/ exists b, parse_note_byte bn = Some b /\ figure = (r +:+ t) +:+ String "/" b).
Proof.
  unfold decode_fields.
  destruct (XF_CHORD_TYPES !! ct) as [t|] eqn:Et; [|discriminate].
  destruct (String.eqb t "N.C."); [intros [= <-]; done|].
  destruct (parse_note_byte cr) as [r|] eqn:Er; [|discriminate].
  intros H _. exists r, t. split; [reflexivity|]. split; [reflexivity|].
  destruct (parse_note_byte bn) as [b|] eqn:Eb.
  - destruct (negb _); injection H as <-; [|by left].
    right. exists b. split; [reflexivity|]. by rewrite string_app_assoc.
  - injection H as <-. by left.
Qed.

(** X3.  For bytes below 128, the figure determines the bytes it was
    decoded from: two three-byte sequences that decode to the same figure,
    other than "N.C.", have the same root byte and the same type byte, and
    the same bass byte when the figure shows a bass. *)
Theorem decoded_figure_determines_bytes
    (cr ct bn cr' ct' bn' : Z) (figure : string) :
  0 <= cr < 128 -> 0 <= bn < 128 -> 0 <= cr' < 128 -> 0 <= bn' < 128 ->
  _parse_xf_chord_sysex [cr; ct; bn] = Some figure ->
  _parse_xf_chord_sysex [cr'; ct'; bn'] = Some figure ->
  figure <> "N.C." ->
  cr = cr' /\ ct = ct' /\ (has_slash figure = true -> bn = bn').
Proof.
  intros Hcr Hbn Hcr' Hbn' H1 H2 Hnc.
  rewrite decode_three in H1, H2.
  destruct (decode_fields_names _ _ _ _ H1 Hnc) as (r & t & Hr & Ht & Hfig).
  destruct (decode_fields_names _ _ _ _ H2 Hnc) as (r' & t' & Hr' & Ht' & Hfig').
  pose proof (parse_note_byte_in_names _ _ Hr) as Ir.
  pose proof (parse_note_byte_in_names _ _ Hr') as Ir'.
  pose proof (gmap_value_elem _ _ _ Ht : t ∈ type_names) as It.
  pose proof (gmap_value_elem _ _ _ Ht' : t' ∈ type_names) as It'.
  pose proof (names_no_slash _ _ Ir It) as Hs.
  pose proof (names_no_slash _ _ Ir' It') as Hs'.
  assert (forall L b, contains_char "/" (L +:+ String "/" b) = true) as Hslash.
  { intros L b. rewrite contains_char_app. simpl. apply orb_true_r. }
  assert (r +:+ t = r' +:+ t' /\ (has_slash figure = true -> bn = bn')) as [E Hbass].
  { destruct Hfig as [->|(b & Hb & ->)], Hfig' as [E|(b' & Hb' & E)].
    - split; [assumption|]. unfold has_slash. rewrite Hs. discriminate.
    - exfalso. pose proof (Hslash (r' +:+ t') b') as Hc. rewrite <- E, Hs in Hc. discriminate.
    - exfalso. pose proof (Hslash (r +:+ t) b) as Hc. rewrite E, Hs' in Hc. discriminate.
    - apply append_slash_inj in E as [E ->]; [|assumption..].
      split; [assumption|]. intros _. by eapply parse_note_byte_inj. }
  pose proof (split_root_names _ _ Ir It) as S1.
  pose proof (split_root_names _ _ Ir' It') as S2.
  rewrite E, S2 in S1. injection S1 as <- <-.
  split; [by eapply parse_note_byte_inj|]. split; [by eapply XF_CHORD_TYPES_inj|].
  assumption.
Qed.

Lemma decoded_figure_determines_bytes_witness :
  0x32 = 0x32 /\ 0x02 = 0x02 /\ (has_slash "Dmaj7/G#" = true -> 0x45 = 0x45).
Proof.
  apply (decoded_figure_determines_bytes 0x32 0x02 0x45 0x32 0x02 0x45 "Dmaj7/G#");
    try lia; try (vm_compute; reflexivity).
  discriminate.
Defined.

(** ** The chord-figure normalizer *)

Lemma prefix_nil (s : string) : String.prefix "" s = true.
Proof. by destruct s. Qed.

Lemma replace_b_no_b (s : string) :
  contains_char "b" (Py.replace "b" "-" s) = false.
Proof.
  unfold Py.replace. induction s as [|c s IH]; [reflexivity|].
  cbn [Py.replace_from String.prefix]. rewrite prefix_nil.
  destruct (ascii_dec "b" c) as [<-|Hc].
  - exact IH.
  - cbn [contains_char]. rewrite IH, orb_false_r.
    apply Ascii.eqb_neq. congruence.
Qed.

(** X4.  A normalized figure contains no letter 'b': every flat sign, and
    every other 'b', has been rewritten to '-'. *)
Theorem normalized_figure_has_no_b (figure : string) :
  contains_char "b" (_normalize_chord_figure figure) = false.
Proof.
  unfold _normalize_chord_figure.
  destruct (String.eqb_spec figure "") as [->|_]; [reflexivity|].
  destruct (String.eqb_spec figure "N.C.") as [->|_]; [reflexivity|].
  cbn [orb]. apply replace_b_no_b.
Qed.

Lemma normalize_is_steps (figure : string) :
  _normalize_chord_figure figure = normalize_steps figure.
Proof.
  unfold _normalize_chord_figure.
  destruct (String.eqb_spec figure "") as [->|_]; [reflexivity|].
  destruct (String.eqb_spec figure "N.C.") as [->|_]; reflexivity.
Qed.

(** X5.  A figure with a '/' is normalized part by part: the text before
    the '/' and the text after it are rewritten independently, and the '/'
    stays where it is. *)
Theorem normalize_around_slash (left right : string) :
  _normalize_chord_figure (left +:+ "/" +:+ right)
  = _normalize_chord_figure left +:+ "/" +:+ _normalize_chord_figure right.
Proof.
  change ("/" +:+ right) with (String "/" right).
  rewrite normalize_with_slash, !normalize_is_steps. reflexivity.
Qed.

(** ** The text chord heuristic *)

(** What a successful match hands to its continuation is what is left of
    the text after a piece of it. *)
Lemma lit_go_suffix (l : string) (prev prev' : option ascii) (s s' : string) :
  Re.lit_go l prev s = Some (prev', s') -> s = l +:+ s'.
Proof.
  revert prev s. induction l as [|a l IH]; intros prev s; simpl.
  - by intros [= _ <-].
  - destruct s as [|c s]; [discriminate|].
    destruct (Ascii.eqb_spec a c) as [<-|]; [|discriminate].
    intros H. apply IH in H. rewrite append_cons. by rewrite <- H.
Qed.

Lemma star_go_suffix {A} (p : ascii -> bool)
    (k : option ascii -> string -> option A) (prev : option ascii) (s : string) (x : A) :
  Re.star_go p k prev s = Some x ->
  exists prev' pre s', s = pre +:+ s' /\ k prev' s' = Some x.
Proof.
  revert prev. induction s as [|c s IH]; intros prev; simpl.
  - intros H. by exists prev, "", "".
  - destruct (p c).
    + destruct (Re.star_go p k (Some c) s) as [y|] eqn:E.
      * intros [= ->]. destruct (IH _ E) as (p' & pre & s' & -> & Hk).
        by exists p', (String c pre), s'.
      * intros H. by exists prev, "", (String c s).
    + intros H. by exists prev, "", (String c s).
Qed.

Lemma rmatch_suffix {A} (r : Re.regex)
    (k : option ascii -> string -> option A) (prev : option ascii) (s : string) (x : A) :
  Re.rmatch r k prev s = Some x ->
  exists prev' pre s', s = pre +:+ s' /\ k prev' s' = Some x.
Proof.
  revert k prev s.
  induction r as [|p|l|r1 IH1 r2 IH2|r1 IH1 r2 IH2|r1 IH1|p|]; intros k prev s; simpl.
  - intros H. by exists prev, "", s.
  - destruct s as [|c s]; [discriminate|]. destruct (p c); [|discriminate].
    intros H. by exists (Some c), (String c ""), s.
  - destruct (Re.lit_go l prev s) as [[prev' s']|] eqn:E; [|discriminate].
    intros H. exists prev', l, s'. split; [by eapply lit_go_suffix | assumption].
  - intros H. destruct (IH1 _ _ _ H) as (p1 & pre1 & s1 & -> & H1).
    destruct (IH2 _ _ _ H1) as (p2 & pre2 & s2 & -> & H2).
    exists p2, (pre1 +:+ pre2), s2. split; [by rewrite string_app_assoc | assumption].
  - destruct (Re.rmatch r1 k prev s) as [y|] eqn:E.
    + intros [= ->]. exact (IH1 _ _ _ E).
    + apply IH2.
  - destruct (Re.rmatch r1 k prev s) as [y|] eqn:E.
    + intros [= ->]. exact (IH1 _ _ _ E).
    + intros H. by exists prev, "", s.
  - apply star_go_suffix.
  - destruct (Re.at_boundary prev s); [|discriminate].
    intros H. by exists prev, "", s.
Qed.

Lemma substring_all (s : string) : substring 0 (String.length s) s = s.
Proof. induction s as [|c s IH]; [reflexivity|]. simpl. by rewrite IH. Qed.

Lemma consumed_prefix (pre s : string) : Re.consumed (pre +:+ s) s = pre.
Proof.
  unfold Re.consumed. rewrite length_append.
  replace (String.length pre + String.length s - String.length s)%nat
    with (String.length pre) by lia.
  rewrite substring_append by lia. apply substring_all.
Qed.

Lemma chord_text_match_at_piece (prev : option ascii) (s g : string) :
  chord_text_match_at prev s = Some g ->
  starts_with_note_letter g = true /\ exists pre post, s = pre +:+ g +:+ post.
Proof.
  unfold chord_text_match_at. intros H.
  apply rmatch_suffix in H as (p1 & pre & s1 & -> & H).
  change chord_text_group with
    (Re.Cat (Re.Class is_A_to_G)
       (match chord_text_group with Re.Cat _ r => r | _ => Re.Empty end)) in H.
  cbn [Re.rmatch] in H.
  destruct s1 as [|c s1]; [discriminate|].
  destruct (is_A_to_G c) eqn:Ec; [|discriminate].
  apply rmatch_suffix in H as (p2 & mid & s2 & -> & H).
  cbn [Re.rmatch] in H. destruct (Re.at_boundary p2 s2); [|discriminate].
  injection H as <-.
  rewrite <- append_cons, consumed_prefix.
  split; [exact Ec|]. by exists pre, s2.
Qed.

Lemma chord_text_search_from_piece (prev : option ascii) (s g : string) :
  chord_text_search_from prev s = Some g ->
  starts_with_note_letter g = true /\ exists pre post, s = pre +:+ g +:+ post.
Proof.
  revert prev. induction s as [|c s IH]; intros prev; cbn [chord_text_search_from].
  - destruct (chord_text_match_at prev "") as [g'|] eqn:E; [|discriminate].
    intros [= ->]. by eapply chord_text_match_at_piece.
  - destruct (chord_text_match_at prev (String c s)) as [g'|] eqn:E.
    + intros [= ->]. by eapply chord_text_match_at_piece.
    + intros H. destruct (IH _ H) as (Hs & pre & post & ->).
      split; [assumption|]. by exists (String c pre), post.
Qed.

(** X6.  The candidate that the text heuristic finds is a piece of the
    text, taken as it stands, and it starts with a note letter A to G. *)
Theorem candidate_is_piece_of_text (text candidate : string) :
  chord_text_search text = Some candidate ->
  starts_with_note_letter candidate = true
  /\ exists before after, text = before +:+ candidate +:+ after.
Proof. apply chord_text_search_from_piece. Qed.

Lemma candidate_is_piece_of_text_witness :
  starts_with_note_letter "Bb7(b9)/D" = true
  /\ exists before after, "[Bb7(b9)/D] x" = before +:+ "Bb7(b9)/D" +:+ after.
Proof.
  apply (candidate_is_piece_of_text "[Bb7(b9)/D] x" "Bb7(b9)/D").
  vm_compute; reflexivity.
Defined.

Lemma all_chars_app (p : ascii -> bool) (s t : string) :
  all_chars p (s +:+ t) = all_chars p s && all_chars p t.
Proof.
  induction s as [|c s IH]; [reflexivity|].
  rewrite append_cons. simpl. rewrite IH. apply andb_assoc.
Qed.

Lemma all_chars_lstrip (p : ascii -> bool) (s : string) :
  all_chars p s = true -> all_chars p (Py.lstrip s) = true.
Proof.
  induction s as [|c s IH]; [done|]. intros H. simpl.
  destruct (Py.is_space c); [|assumption].
  simpl in H. apply andb_prop in H as [_ H]. by apply IH.
Qed.

Lemma all_chars_rstrip (p : ascii -> bool) (s : string) :
  all_chars p s = true -> all_chars p (Py.rstrip s) = true.
Proof.
  induction s as [|c s IH]; [done|]. intros H. simpl.
  simpl in H. apply andb_prop in H as [Hc H].
  destruct (Py.is_space c && String.eqb (Py.rstrip s) ""); [reflexivity|].
  simpl. rewrite Hc. by apply IH.
Qed.

Lemma no_note_letter_no_candidate (text : string) :
  all_chars not_A_to_G text = true -> chord_text_search text = None.
Proof.
  intros Hall. destruct (chord_text_search text) as [g|] eqn:E; [|reflexivity].
  apply chord_text_search_from_piece in E as (Hs & pre & post & ->).
  rewrite !all_chars_app in Hall.
  apply andb_prop in Hall as [_ Hall]. apply andb_prop in Hall as [Hall _].
  destruct g as [|c g]; [discriminate|]. simpl in Hs, Hall.
  unfold not_A_to_G in Hall. rewrite Hs in Hall. discriminate.
Qed.

(** X7.  A text event whose text has no upper-case letter A to G yields no
    chord, whatever the validator accepts: the heuristic finds no
    candidate and the scan only advances its tick count. *)
Theorem text_without_note_letter_yields_no_chord
    {chord_symbol : Type} (harmony_ChordSymbol : string -> option chord_symbol)
    (harmony_NoChord : chord_symbol) (truthy : chord_symbol -> bool)
    (q t : Z) (type : text_type) (txt : string) (st : Z * list placed_chord) :
  all_chars not_A_to_G txt = true ->
  chord_text_search (Py.strip txt) = None
  /\ chord_step harmony_ChordSymbol harmony_NoChord truthy q st
       (Msg t (text_meta type txt))
     = (st.1 + t, st.2).
Proof.
  intros Hall.
  assert (chord_text_search (Py.strip txt) = None) as Hnone.
  { apply no_note_letter_no_candidate. unfold Py.strip.
    by apply all_chars_rstrip, all_chars_lstrip. }
  split; [assumption|].
  apply (chord_step_no_text harmony_ChordSymbol harmony_NoChord truthy q st
           (Msg t (text_meta type txt))).
  unfold current_chord_text. cbn [kind]. rewrite Hnone.
  by destruct (String.eqb (Py.strip txt) "").
Qed.

Lemma text_without_note_letter_yields_no_chord_witness :
  chord_step (fun s : string => Some s) "N.C." (fun _ => true) 480 (0, [])
    (Msg 10 (text_meta lyrics "la la, do re mi (x2)"))
  = (0 + 10, []).
Proof.
  refine (proj2 (text_without_note_letter_yields_no_chord (fun s : string => Some s)
                   "N.C." (fun _ => true) 480 10 lyrics "la la, do re mi (x2)" (0, []) _)).
  vm_compute; reflexivity.
Defined.

(** ** The chord scan and the rehearsal-mark scan *)

Lemma sorted_snoc (ts : list Z) (x : Z) :
  StronglySorted Z.le ts -> Forall (fun t => t <= x) ts ->
  StronglySorted Z.le (ts ++ [x]).
Proof.
  intros Hs Hb. apply StronglySorted_app_2; [|assumption|repeat constructor].
  intros t1 t2 H1 H2. apply list_elem_of_singleton in H2 as ->.
  rewrite Forall_forall in Hb. by apply Hb.
Qed.

Section ChordScanFurther.

Context {chord_symbol : Type}.
Variable harmony_ChordSymbol : string -> option chord_symbol.
Variable harmony_NoChord : chord_symbol.
Variable truthy : chord_symbol -> bool.

#[local] Abbreviation step := (chord_step harmony_ChordSymbol harmony_NoChord truthy).
#[local] Abbreviation loop := (chord_loop harmony_ChordSymbol harmony_NoChord truthy).
#[local] Abbreviation place := (place_chord harmony_ChordSymbol harmony_NoChord truthy).

(** A turn of the loop advances the tick count and adds at most one chord,
    placed at the new tick count. *)
Lemma place_chord_cases (q now : Z) (c : string) (chords : list placed_chord) :
  place q now c chords = chords
  \/ exists o x, Py.true_div now q = Returned x
       /\ place q now c chords = chords ++ [ {| cs := o; cs_offset := x |} ].
Proof.
  unfold place_chord.
  destruct (if String.eqb c "N.C." then _ else _) as [o|]; [|by left].
  destruct (truthy o); [|by left].
  destruct (Py.true_div now q) as [x|]; [|by left].
  right. by exists o, x.
Qed.

Lemma chord_step_cases (q : Z) (st : Z * list placed_chord) (msg : message) :
  (step q st msg).1 = st.1 + time msg
  /\ ((step q st msg).2 = st.2
      \/ exists o x, Py.true_div (st.1 + time msg) q = Returned x
           /\ (step q st msg).2 = st.2 ++ [ {| cs := o; cs_offset := x |} ]).
Proof.
  destruct st as [ticks chords]. unfold chord_step.
  destruct (current_chord_text harmony_ChordSymbol msg) as [c|]; [|by split; [|left]].
  destruct (String.eqb c ""); [by split; [|left]|].
  split; [reflexivity|]. apply place_chord_cases.
Qed.

Lemma chord_loop_ticks (q : Z) (msgs : list message) (st : Z * list placed_chord) :
  (loop q st msgs).1 = st.1 + ticks_of msgs.
Proof.
  revert st. induction msgs as [|m msgs IH]; intros st; simpl; [lia|].
  unfold chord_loop in *. rewrite IH.
  destruct (chord_step_cases q st m) as [-> _]. lia.
Qed.

Lemma chord_loop_placed (q lo : Z) (msgs : list message)
    (st : Z * list placed_chord) (ts : list Z) :
  Forall (fun m => 0 <= time m) msgs ->
  lo <= st.1 ->
  Forall2 (fun c t => Py.true_div t q = Returned (cs_offset c)) st.2 ts ->
  StronglySorted Z.le ts ->
  Forall (fun t => lo <= t <= st.1) ts ->
  exists ts',
    Forall2 (fun c t => Py.true_div t q = Returned (cs_offset c)) (loop q st msgs).2 ts'
    /\ StronglySorted Z.le ts'
    /\ Forall (fun t => lo <= t <= st.1 + ticks_of msgs) ts'
    /\ (length (loop q st msgs).2 <= length st.2 + length msgs)%nat.
Proof.
  intros Hmsgs. revert st ts.
  induction Hmsgs as [|m msgs Hm _ IH]; intros st ts Hlo H2 Hs Hb.
  - exists ts. cbn [ticks_of foldr]. rewrite Z.add_0_r.
    split; [assumption|]. split; [assumption|]. split; [assumption|].
    unfold chord_loop. simpl. lia.
  - unfold chord_loop. cbn [foldl]. fold (loop q (step q st m) msgs).
    destruct (chord_step_cases q st m) as [Ht Hc].
    assert (Forall (fun t => lo <= t <= (step q st m).1) ts) as Hb'.
    { rewrite Ht. eapply Forall_impl; [exact Hb|]. intros t ?. simpl in *. lia. }
    assert (lo <= (step q st m).1) as Hlo' by (rewrite Ht; lia).
    assert (forall ts' : list Z,
              Forall (fun t => lo <= t <= (step q st m).1 + ticks_of msgs) ts' ->
              Forall (fun t => lo <= t <= st.1 + ticks_of (m :: msgs)) ts') as Hweak.
    { intros ts' H. eapply Forall_impl; [exact H|]. intros t ?.
      rewrite Ht in *. cbn [ticks_of foldr] in *. simpl in *.
      change (foldr (fun m acc => time m + acc) 0 msgs) with (ticks_of msgs). lia. }
    destruct Hc as [Hc|(o & x & Hx & Hc)].
    + destruct (IH (step q st m) ts Hlo') as (ts' & H2' & Hs' & Hb'' & Hl);
        [by rewrite Hc | assumption | assumption |].
      exists ts'. split; [assumption|]. split; [assumption|]. split; [by apply Hweak|].
      rewrite Hc in Hl. simpl. lia.
    + destruct (IH (step q st m) (ts ++ [st.1 + time m]) Hlo') as (ts' & H2' & Hs' & Hb'' & Hl).
      { rewrite Hc. apply Forall2_app; [assumption|]. by repeat constructor. }
      { apply sorted_snoc; [assumption|].
        eapply Forall_impl; [exact Hb|]. intros t ?. simpl in *. lia. }
      { apply Forall_app_2; [assumption|]. rewrite Ht.
        repeat constructor; lia. }
      exists ts'. split; [assumption|]. split; [assumption|]. split; [by apply Hweak|].
      rewrite Hc, length_app in Hl. simpl in *. lia.
Qed.

(** X8.  The chords come out in the order of the stream, each placed at
    the tick count reached at its message divided by the resolution: for
    delta times that are not negative, the offsets are those of a
    non-decreasing list of ticks between 0 and the length of the stream,
    and there are no more chords than messages. *)
Theorem chords_are_placed_in_stream_order
    (mido_MidiFile : file_system) (midi_path : string) (mf : MidiFile) (q : Z) :
  mido_MidiFile midi_path = Some mf ->
  Forall (fun m => 0 <= time m) (merge_tracks mf) ->
  exists chords ts,
    _parse_chords_from_midi harmony_ChordSymbol harmony_NoChord truthy
      mido_MidiFile midi_path q = Returned chords
    /\ Forall2 (fun c t => Py.true_div t q = Returned (cs_offset c)) chords ts
    /\ StronglySorted Z.le ts
    /\ Forall (fun t => 0 <= t <= ticks_of (merge_tracks mf)) ts
    /\ (length chords <= length (merge_tracks mf))%nat.
Proof.
  intros Hopen Htimes. unfold _parse_chords_from_midi. rewrite Hopen.
  destruct (chord_loop_placed q 0 (merge_tracks mf) (0, []) [] Htimes)
    as (ts & H2 & Hs & Hb & Hl); try (by constructor); [simpl; lia|].
  eexists _, ts. split; [reflexivity|]. split; [assumption|]. split; [assumption|].
  split; [exact Hb | exact Hl].
Qed.

(** With the resolution 0 every placement divides by zero inside the
    [try], and no chord is kept. *)
Lemma chord_loop_zero_resolution (msgs : list message) (st : Z * list placed_chord) :
  (loop 0 st msgs).2 = st.2.
Proof.
  revert st. induction msgs as [|m msgs IH]; intros st; [reflexivity|].
  unfold chord_loop in *. cbn [foldl]. rewrite IH.
  destruct (chord_step_cases 0 st m) as [_ [H|(o & x & Hx & _)]]; [assumption|].
  discriminate.
Qed.

Lemma parse_chords_zero_resolution (mido_MidiFile : file_system) (midi_path : string) :
  _parse_chords_from_midi harmony_ChordSymbol harmony_NoChord truthy
    mido_MidiFile midi_path 0 = Returned [].
Proof.
  unfold _parse_chords_from_midi.
  destruct (mido_MidiFile midi_path); [|reflexivity].
  by rewrite chord_loop_zero_resolution.
Qed.

(** The chord scan reads meta messages only. *)
Lemma chord_step_only_meta (q : Z) (st : Z * list placed_chord) (m : message) :
  step q st (only_meta m) = step q st m.
Proof.
  unfold only_meta, is_meta. destruct m as [t k].
  destruct k; reflexivity.
Qed.

Lemma chord_loop_only_meta (q : Z) (msgs : list message) (st : Z * list placed_chord) :
  loop q st (only_meta <$> msgs) = loop q st msgs.
Proof.
  revert st. induction msgs as [|m msgs IH]; intros st; [reflexivity|].
  unfold chord_loop in *. cbn [fmap list_fmap foldl].
  rewrite chord_step_only_meta. apply IH.
Qed.

End ChordScanFurther.

Lemma chords_are_placed_in_stream_order_witness :
  exists chords ts,
    _parse_chords_from_midi only_Cmaj7 "N.C." (fun _ => true)
      (fun _ => Some {| ticks_per_beat := 480;
                        merge_tracks := [ Msg 0 (text_meta marker "Cmaj7");
                                          Msg 960 (text_meta marker "Cmaj7") ] |})
      "song.mid" 480 = Returned chords
    /\ Forall2 (fun c t => Py.true_div t 480 = Returned (cs_offset c)) chords ts
    /\ StronglySorted Z.le ts.
Proof.
  destruct (chords_are_placed_in_stream_order only_Cmaj7 "N.C." (fun _ => true)
              (fun _ => Some {| ticks_per_beat := 480;
                                merge_tracks := [ Msg 0 (text_meta marker "Cmaj7");
                                                  Msg 960 (text_meta marker "Cmaj7") ] |})
              "song.mid" _ 480 eq_refl)
    as (chords & ts & H1 & H2 & H3 & _).
  - repeat constructor; simpl; lia.
  - exists chords, ts. split; [exact H1|]. split; [exact H2 | exact H3].
Defined.

(** *** The rehearsal marks *)

Lemma rehe_step_cases (st : Z * list (Z * string)) (msg : message) :
  (rehe_step st msg).1 = st.1 + time msg
  /\ ((rehe_step st msg).2 = st.2
      \/ exists rr, (rehe_step st msg).2 = st.2 ++ [(st.1 + time msg, rehe_mark_text rr)]).
Proof.
  destruct st as [ticks marks]. unfold rehe_step.
  destruct (kind msg) as [data| | | | | |]; try (split; [reflexivity | by left]).
  destruct (xf_event data) as [[event_id payload]|]; [|split; [reflexivity | by left]].
  destruct (event_id =? XF_REHE_ID); [|split; [reflexivity | by left]].
  destruct (data !! 3%nat) as [rr|]; [|split; [reflexivity | by left]].
  split; [reflexivity|]. right. by exists rr.
Qed.

Lemma rehe_loop_marks (lo : Z) (msgs : list message) (st : Z * list (Z * string)) :
  Forall (fun m => 0 <= time m) msgs ->
  lo <= st.1 ->
  StronglySorted Z.le st.2.*1 ->
  Forall (fun mark => lo <= mark.1 <= st.1 /\ exists rr, mark.2 = rehe_mark_text rr) st.2 ->
  StronglySorted Z.le (rehe_loop st msgs).2.*1
  /\ Forall (fun mark => lo <= mark.1 <= st.1 + ticks_of msgs
                         /\ exists rr, mark.2 = rehe_mark_text rr) (rehe_loop st msgs).2
  /\ (length (rehe_loop st msgs).2 <= length st.2 + length msgs)%nat.
Proof.
  intros Hmsgs. revert st.
  induction Hmsgs as [|m msgs Hm _ IH]; intros st Hlo Hs Hb.
  - cbn [ticks_of foldr]. rewrite Z.add_0_r. unfold rehe_loop. simpl.
    split; [assumption|]. split; [assumption|]. lia.
  - unfold rehe_loop. cbn [foldl]. fold (rehe_loop (rehe_step st m) msgs).
    destruct (rehe_step_cases st m) as [Ht Hc].
    assert (lo <= (rehe_step st m).1) as Hlo' by (rewrite Ht; lia).
    assert (Forall (fun mark => lo <= mark.1 <= (rehe_step st m).1
                                /\ exists rr, mark.2 = rehe_mark_text rr) st.2) as Hb'.
    { rewrite Ht. eapply Forall_impl; [exact Hb|]. intros mark [? ?]. split; [lia|done]. }
    assert (StronglySorted Z.le (rehe_step st m).2.*1
            /\ Forall (fun mark => lo <= mark.1 <= (rehe_step st m).1
                                   /\ exists rr, mark.2 = rehe_mark_text rr) (rehe_step st m).2
            /\ (length (rehe_step st m).2 <= S (length st.2))%nat) as (Hs1 & Hb1 & Hl1).
    { destruct Hc as [->|(rr & ->)].
      - split; [assumption|]. split; [assumption|]. lia.
      - rewrite fmap_app, length_app. cbn [fmap list_fmap fst length].
        split; [|split; [|lia]].
        + apply sorted_snoc; [assumption|]. apply Forall_fmap.
          eapply Forall_impl; [exact Hb|]. intros mark [? _]. simpl. lia.
        + apply Forall_app_2; [assumption|]. rewrite Ht.
          repeat constructor; simpl; [lia|lia|by exists rr]. }
    destruct (IH (rehe_step st m) Hlo' Hs1 Hb1) as (Hs2 & Hb2 & Hl2).
    split; [assumption|]. split.
    + eapply Forall_impl; [exact Hb2|]. intros mark [? ?]. split; [|done].
      rewrite Ht in *. cbn [ticks_of foldr].
      change (foldr (fun m acc => time m + acc) 0 msgs) with (ticks_of msgs). lia.
    + simpl. lia.
Qed.

(** X9.  The rehearsal marks come out in the order of the stream: for
    delta times that are not negative their ticks are non-decreasing and lie
    between 0 and the length of the stream, every label is the label of
    some data byte, and there are no more marks than messages.  The
    resolution passed to the scan plays no part. *)
Theorem rehearsal_marks_in_stream_order
    (mido_MidiFile : file_system) (midi_path : string) (mf : MidiFile) (q : Z) :
  mido_MidiFile midi_path = Some mf ->
  Forall (fun m => 0 <= time m) (merge_tracks mf) ->
  exists marks,
    _parse_rehe_from_midi mido_MidiFile midi_path q = Returned marks
    /\ StronglySorted Z.le marks.*1
    /\ Forall (fun mark => 0 <= mark.1 <= ticks_of (merge_tracks mf)
                           /\ exists rr, mark.2 = rehe_mark_text rr) marks
    /\ (length marks <= length (merge_tracks mf))%nat.
Proof.
  intros Hopen Htimes. unfold _parse_rehe_from_midi. rewrite Hopen.
  destruct (rehe_loop_marks 0 (merge_tracks mf) (0, []) Htimes) as (Hs & Hb & Hl);
    [simpl; lia | constructor | constructor |].
  eexists. split; [reflexivity|]. split; [assumption|]. split; [exact Hb | exact Hl].
Qed.

Lemma rehearsal_marks_in_stream_order_witness :
  exists marks,
    _parse_rehe_from_midi
      (fun _ => Some {| ticks_per_beat := 480;
                        merge_tracks := [ Msg 0 (sequencer_specific [0x43; 0x7B; 0x02; 0x00]);
                                          Msg 1920 (sequencer_specific [0x43; 0x7B; 0x02; 0x13]) ] |})
      "song.mid" 480 = Returned marks
    /\ StronglySorted Z.le marks.*1.
Proof.
  destruct (rehearsal_marks_in_stream_order
              (fun _ => Some {| ticks_per_beat := 480;
                                merge_tracks := [ Msg 0 (sequencer_specific [0x43; 0x7B; 0x02; 0x00]);
                                                  Msg 1920 (sequencer_specific [0x43; 0x7B; 0x02; 0x13]) ] |})
              "song.mid" _ 480 eq_refl)
    as (marks & H1 & H2 & _).
  - repeat constructor; simpl; lia.
  - exists marks. split; [exact H1 | exact H2].
Defined.

Lemma rehe_step_only_meta (st : Z * list (Z * string)) (m : message) :
  rehe_step st (only_meta m) = rehe_step st m.
Proof.
  unfold only_meta, is_meta. destruct m as [t k].
  destruct k; reflexivity.
Qed.

Lemma rehe_loop_only_meta (msgs : list message) (st : Z * list (Z * string)) :
  rehe_loop st (only_meta <$> msgs) = rehe_loop st msgs.
Proof.
  revert st. induction msgs as [|m msgs IH]; intros st; [reflexivity|].
  unfold rehe_loop in *. cbn [fmap list_fmap foldl].
  rewrite rehe_step_only_meta. apply IH.
Qed.

(** X10.  The label of a rehearsal mark depends on the low seven bits of
    the data byte only, and two data bytes below 128 with the same label
    are equal: the label loses nothing of the byte. *)
Theorem rehearsal_label_determines_byte (rr : Z) :
  rehe_mark_text (rr mod 128) = rehe_mark_text rr
  /\ (forall a b : Z, 0 <= a < 128 -> 0 <= b < 128 ->
        rehe_mark_text a = rehe_mark_text b -> a = b).
Proof.
  split.
  - unfold rehe_mark_text.
    destruct (low_bits_of_mod_128 rr) as [Hv Hi].
    change 0x07 with 7. by rewrite Hv, Hi.
  - intros a b Ha Hb. revert a Ha b Hb.
    apply (Forall_seqZ_range
             (fun a => forall b, 0 <= b < 128 ->
                rehe_mark_text a = rehe_mark_text b -> a = b) 0 128).
    apply Forall_forall. intros a Ha.
    apply (Forall_seqZ_range
             (fun b => rehe_mark_text a = rehe_mark_text b -> a = b) 0 128).
    revert a Ha. apply Forall_forall. compute_done.
Qed.

Lemma rehearsal_label_determines_byte_witness :
  rehe_mark_text (0x93 mod 128) = rehe_mark_text 0x93 /\ 0x13 = 0x93 mod 128.
Proof.
  split.
  - exact (proj1 (rehearsal_label_determines_byte 0x93)).
  - apply (proj2 (rehearsal_label_determines_byte 0x93) 0x13 (0x93 mod 128)).
    + lia.
    + change (0x93 mod 128) with 19. lia.
    + reflexivity.
Defined.

(** ** The melody scan *)

(** *** The notes and the ticks they come from *)

Lemma melody_inv_step (q : Z) (st : melody_state) (spans : list (Z * Z * Z)) (m : message) :
  q <> 0 -> 0 <= time m ->
  melody_inv q st spans ->
  exists st' spans',
    melody_step q st m = Returned st'
    /\ absolute_time_ticks st' = absolute_time_ticks st + time m
    /\ melody_inv q st' spans'.
Proof.
  intros Hq Hm (H0 & Hn & Hb & Hs & Ho).
  assert (Forall (fun span : Z * Z * Z =>
            0 <= span.1.2 <= span.2 /\ span.2 <= absolute_time_ticks st + time m) spans)
    as Hb'.
  { eapply Forall_impl; [exact Hb|]. intros span ?. simpl in *. lia. }
  assert (forall k s v, open_notes st !! k = Some (s, v) ->
            0 <= s <= absolute_time_ticks st + time m) as Ho'.
  { intros k s v H. specialize (Ho k s v H). lia. }
  destruct (melody_step_cases q st m) as [(p & v & _ & _ & ->)|[(p & _ & ->)|(_ & _ & ->)]].
  - eexists _, spans. split; [reflexivity|]. split; [reflexivity|].
    split; [simpl; lia|]. split; [assumption|]. split; [assumption|].
    split; [assumption|]. simpl. intros k s v'. rewrite lookup_insert.
    case_decide; [|by apply Ho']. intros [= <- _]. lia.
  - unfold close_note. destruct (open_notes st !! p) as [[s v]|] eqn:Ep.
    + rewrite !true_div_nonzero by assumption. cbn [rbind].
      pose proof (Ho p s v Ep) as Hps.
      eexists _, (spans ++ [(p, s, absolute_time_ticks st + time m)]).
      split; [reflexivity|]. split; [reflexivity|].
      split; [simpl; lia|]. split; [|split; [|split]]; simpl.
      * by rewrite Hn, fmap_app.
      * apply Forall_app_2; [assumption|]. repeat constructor; simpl; lia.
      * rewrite fmap_app. apply sorted_snoc; [assumption|].
        apply Forall_fmap. eapply Forall_impl; [exact Hb|].
        intros span ?. unfold span_end. simpl in *. lia.
      * intros k s' v'. rewrite lookup_delete.
        case_decide; [discriminate | by apply Ho'].
    + eexists _, spans. split; [reflexivity|]. split; [reflexivity|].
      split; [simpl; lia|]. done.
  - eexists _, spans. split; [reflexivity|]. split; [reflexivity|].
    split; [simpl; lia|]. done.
Qed.

Lemma melody_inv_loop (q : Z) (msgs : list message) (st : melody_state)
    (spans : list (Z * Z * Z)) :
  q <> 0 -> Forall (fun m => 0 <= time m) msgs ->
  melody_inv q st spans ->
  exists st' spans',
    melody_loop q st msgs = Returned st'
    /\ absolute_time_ticks st' = absolute_time_ticks st + ticks_of msgs
    /\ melody_inv q st' spans'.
Proof.
  intros Hq Hmsgs. revert st spans.
  induction Hmsgs as [|m msgs Hm _ IH]; intros st spans Hinv.
  - exists st, spans. split; [reflexivity|]. split; [simpl; lia | assumption].
  - destruct (melody_inv_step q st spans m Hq Hm Hinv) as (st1 & spans1 & Hstep & Ht1 & Hinv1).
    destruct (IH st1 spans1 Hinv1) as (st2 & spans2 & Hloop & Ht2 & Hinv2).
    exists st2, spans2. cbn [melody_loop]. rewrite Hstep. cbn [rbind].
    split; [assumption|]. split; [|assumption].
    rewrite Ht2, Ht1. cbn [ticks_of foldr].
    change (foldr (fun m acc => time m + acc) 0 msgs) with (ticks_of msgs). lia.
Qed.

(** X11.  With a non-zero resolution and delta times that are not negative,
    the melody scan returns, and each of its notes comes from a start tick
    [s] and an end tick [e] of the stream with [0 <= s <= e]: its offset
    is [s/q] and its duration [(e-s)/q], so no offset and no duration is
    negative for a positive resolution.  The notes are in the order of
    their end ticks. *)
Theorem melody_notes_come_from_spans
    (mido_MidiFile : file_system) (melody_midi_path : string) (mf : MidiFile) (q : Z) :
  mido_MidiFile melody_midi_path = Some mf ->
  q <> 0 ->
  Forall (fun m => 0 <= time m) (merge_tracks mf) ->
  exists spans : list (Z * Z * Z),
    _parse_melody_with_mido mido_MidiFile melody_midi_path q
      = Returned (note_of_span q <$> spans)
    /\ Forall (fun span : Z * Z * Z =>
                 0 <= span.1.2 <= span.2 /\ span.2 <= ticks_of (merge_tracks mf)) spans
    /\ StronglySorted Z.le (span_end <$> spans).
Proof.
  intros Hopen Hq Htimes.
  destruct (melody_inv_loop q (merge_tracks mf) melody_start [] Hq Htimes)
    as (st & spans & Hloop & Ht & (_ & Hn & Hb & Hs & _)).
  { split; [simpl; lia|]. split; [reflexivity|]. split; [constructor|].
    split; [constructor|]. intros k s v H. simpl in H. by rewrite lookup_empty in H. }
  exists spans. rewrite (parse_melody_opened _ _ _ _ Hopen). unfold melody_of.
  rewrite Hloop. cbn [rbind]. rewrite Hn. split; [reflexivity|].
  split; [|assumption]. simpl in Ht. rewrite Z.add_0_l in Ht. by rewrite <- Ht.
Qed.

Lemma melody_notes_come_from_spans_witness :
  exists spans : list (Z * Z * Z),
    _parse_melody_with_mido
      (fun _ => Some {| ticks_per_beat := 480;
                        merge_tracks := [ Msg 0 (note_on 0 60 100);
                                          Msg 480 (note_off 0 60 0) ] |})
      "song.mid" 480
    = Returned (note_of_span 480 <$> spans)
    /\ StronglySorted Z.le (span_end <$> spans).
Proof.
  destruct (melody_notes_come_from_spans
              (fun _ => Some {| ticks_per_beat := 480;
                                merge_tracks := [ Msg 0 (note_on 0 60 100);
                                                  Msg 480 (note_off 0 60 0) ] |})
              "song.mid" _ 480 eq_refl)
    as (spans & H1 & _ & H3).
  - lia.
  - repeat constructor; simpl; lia.
  - exists spans. split; [exact H1 | exact H3].
Defined.

(** *** How many notes *)

Lemma note_end_is_a_note_end (p : Z) (m : message) :
  is_note_end p m = true -> is_a_note_end m = true.
Proof.
  unfold is_note_end, is_a_note_end.
  destruct (kind m) as [| | |ch n v|ch n v| |]; try discriminate.
  - intros H. apply andb_prop in H as [H Hv]. apply andb_prop in H as [Hc _].
    by rewrite Hc, Hv.
  - intros H. by apply andb_prop in H as [Hc _].
Qed.

Lemma melody_count_step (q : Z) (st st' : melody_state) (m : message) :
  melody_step q st m = Returned st' ->
  (length (notes st') + size (open_notes st')
   <= length (notes st) + size (open_notes st) + (if is_a_note_start m then 1 else 0))%nat
  /\ (length (notes st')
      <= length (notes st) + (if is_a_note_end m then 1 else 0))%nat.
Proof.
  destruct (melody_step_cases q st m) as [(p & v & Hk & Hv & ->)|[(p & Hp & ->)|(_ & _ & ->)]].
  - intros [= <-]. simpl. rewrite map_size_insert.
    assert (is_a_note_start m = true) as ->.
    { unfold is_a_note_start. rewrite Hk. simpl. destruct (Z.ltb_spec 0 v); [reflexivity|lia]. }
    destruct (is_a_note_end m), (open_notes st !! p); split; unfold id; lia.
  - rewrite (note_end_is_a_note_end p m Hp). unfold close_note.
    destruct (open_notes st !! p) as [[s v]|] eqn:Ep.
    + destruct (Py.true_div s q); [|discriminate]. cbn [rbind].
      destruct (Py.true_div _ q); [|discriminate]. cbn [rbind].
      intros [= <-]. simpl. rewrite length_app. simpl.
      rewrite map_size_delete, Ep.
      assert (size (open_notes st) <> 0%nat) as Hne.
      { apply (map_size_ne_0_lookup_2 _ p). by rewrite Ep. }
      destruct (is_a_note_start m); split; lia.
    + intros [= <-]. simpl. destruct (is_a_note_start m); split; lia.
  - intros [= <-]. simpl. destruct (is_a_note_start m), (is_a_note_end m); split; lia.
Qed.

Lemma melody_count_loop (q : Z) (msgs : list message) (st st' : melody_state) :
  melody_loop q st msgs = Returned st' ->
  (length (notes st') + size (open_notes st')
   <= length (notes st) + size (open_notes st) + count_msgs is_a_note_start msgs)%nat
  /\ (length (notes st')
      <= length (notes st) + count_msgs is_a_note_end msgs)%nat.
Proof.
  revert st. induction msgs as [|m msgs IH]; intros st; cbn [melody_loop count_msgs].
  - intros [= <-]. split; lia.
  - destruct (melody_step q st m) as [st1|] eqn:E1; [|discriminate]. cbn [rbind].
    intros H. destruct (IH _ H) as [H1 H2].
    destruct (melody_count_step q st st1 m E1) as [H3 H4].
    destruct (is_a_note_start m), (is_a_note_end m); split; lia.
Qed.

(** X12.  The melody scan returns no more notes than the stream has note
    starts on channel 0, and no more than it has note ends on channel 0:
    every note uses up one pending start and one note end. *)
Theorem melody_notes_are_counted (q : Z) (msgs : list message) (found : list Note) :
  melody_of q msgs = Returned found ->
  (length found <= count_msgs is_a_note_start msgs)%nat
  /\ (length found <= count_msgs is_a_note_end msgs)%nat.
Proof.
  unfold melody_of.
  destruct (melody_loop q melody_start msgs) as [st|] eqn:E; [|discriminate].
  intros [= <-]. destruct (melody_count_loop q msgs melody_start st E) as [H1 H2].
  simpl in H1, H2. rewrite map_size_empty in H1. split; lia.
Qed.

Lemma melody_notes_are_counted_witness :
  le (length [ note_of_span 480 (60, 120, 240) ])
     (count_msgs is_a_note_start
        [ Msg 0 (note_on 0 60 100); Msg 120 (note_on 0 60 80); Msg 120 (note_off 0 60 0) ]).
Proof.
  refine (proj1 (melody_notes_are_counted 480
                   [ Msg 0 (note_on 0 60 100); Msg 120 (note_on 0 60 80);
                     Msg 120 (note_off 0 60 0) ]
                   [ note_of_span 480 (60, 120, 240) ] _)).
  vm_compute; reflexivity.
Defined.

(** *** What the scans read, and the resolution 0 *)

Lemma melody_loop_zero_resolution (msgs : list message) (st : melody_state) :
  melody_loop 0 st msgs = Raised
  \/ exists st', melody_loop 0 st msgs = Returned st' /\ notes st' = notes st.
Proof.
  revert st. induction msgs as [|m msgs IH]; intros st; cbn [melody_loop].
  - right. by exists st.
  - assert (melody_step 0 st m = Raised
            \/ exists st1, melody_step 0 st m = Returned st1 /\ notes st1 = notes st) as Hstep.
    { destruct (melody_step_cases 0 st m) as [(p & v & _ & _ & ->)|[(p & _ & ->)|(_ & _ & ->)]].
      - right. by eexists.
      - unfold close_note. destruct (open_notes st !! p) as [[s v]|]; [by left|].
        right. by eexists.
      - right. by eexists. }
    destruct Hstep as [->|(st1 & -> & Hn)]; [by left|]. cbn [rbind].
    destruct (IH st1) as [->|(st2 & -> & Hn2)]; [by left|].
    right. exists st2. split; [reflexivity | congruence].
Qed.

(** X13.  With the resolution 0 no scan returns anything: in the chord scan
    every placement divides by zero inside the [try] and the chord is
    dropped, so the result is empty; the melody scan raises at the first
    note it would emit, and returns the empty list if there is none. *)
Theorem resolution_zero_gives_nothing
    {chord_symbol : Type} (harmony_ChordSymbol : string -> option chord_symbol)
    (harmony_NoChord : chord_symbol) (truthy : chord_symbol -> bool)
    (mido_MidiFile : file_system) (midi_path : string) :
  _parse_chords_from_midi harmony_ChordSymbol harmony_NoChord truthy
    mido_MidiFile midi_path 0 = Returned []
  /\ (_parse_melody_with_mido mido_MidiFile midi_path 0 = Raised
      \/ _parse_melody_with_mido mido_MidiFile midi_path 0 = Returned []).
Proof.
  split; [apply parse_chords_zero_resolution|].
  unfold _parse_melody_with_mido. destruct (mido_MidiFile midi_path) as [mf|]; [|by left].
  destruct (melody_loop_zero_resolution (merge_tracks mf) melody_start)
    as [->|(st & -> & Hn)]; [by left|].
  right. cbn [rbind]. by rewrite Hn.
Qed.

Lemma melody_step_only_channel_0_notes (q : Z) (st : melody_state) (m : message) :
  melody_step q st (only_channel_0_notes m) = melody_step q st m.
Proof.
  unfold only_channel_0_notes, is_channel_0_note. destruct m as [t k].
  destruct k as [| | |ch n v|ch n v| |]; try reflexivity.
  - cbn [kind]. destruct (Z.eqb_spec ch 0) as [->|Hch]; [reflexivity|].
    unfold melody_step, silenced. cbn [kind time].
    by destruct (Z.eqb_spec ch 0).
  - cbn [kind]. destruct (Z.eqb_spec ch 0) as [->|Hch]; [reflexivity|].
    unfold melody_step, silenced. cbn [kind time].
    by destruct (Z.eqb_spec ch 0).
Qed.

Lemma melody_loop_only_channel_0_notes (q : Z) (msgs : list message) (st : melody_state) :
  melody_loop q st (only_channel_0_notes <$> msgs) = melody_loop q st msgs.
Proof.
  revert st. induction msgs as [|m msgs IH]; intros st; [reflexivity|].
  cbn [fmap list_fmap melody_loop]. rewrite melody_step_only_channel_0_notes.
  destruct (melody_step q st m); [apply IH | reflexivity].
Qed.

(** X14.  Each scan reads its own part of the stream and only the delta
    times of the rest: the chord scan and the rehearsal scan give the same
    result when every message that is not a meta message is replaced by one
    that only carries its time, and the melody scan gives the same result
    when every message that is not a note message of channel 0 is. *)
Theorem scans_read_their_own_messages
    {chord_symbol : Type} (harmony_ChordSymbol : string -> option chord_symbol)
    (harmony_NoChord : chord_symbol) (truthy : chord_symbol -> bool)
    (q : Z) (msgs : list message) :
  chord_loop harmony_ChordSymbol harmony_NoChord truthy q (0, []) (only_meta <$> msgs)
  = chord_loop harmony_ChordSymbol harmony_NoChord truthy q (0, []) msgs
  /\ rehe_loop (0, []) (only_meta <$> msgs) = rehe_loop (0, []) msgs
  /\ melody_of q (only_channel_0_notes <$> msgs) = melody_of q msgs.
Proof.
  split; [apply chord_loop_only_meta|]. split; [apply rehe_loop_only_meta|].
  unfold melody_of. by rewrite melody_loop_only_channel_0_notes.
Qed.

(** ** The title *)

Lemma rstrip_idempotent (s : string) : Py.rstrip (Py.rstrip s) = Py.rstrip s.
Proof.
  induction s as [|c s IH]; [reflexivity|]. cbn [Py.rstrip].
  destruct (Py.is_space c && String.eqb (Py.rstrip s) "") eqn:E; [reflexivity|].
  cbn [Py.rstrip]. rewrite IH, E. reflexivity.
Qed.

Lemma rstrip_cons (c : ascii) (s : string) :
  Py.is_space c = false -> Py.rstrip (String c s) = String c (Py.rstrip s).
Proof. intros Hc. cbn [Py.rstrip]. by rewrite Hc. Qed.

Lemma lstrip_head (s : string) :
  Py.lstrip s = "" \/ exists c s', Py.lstrip s = String c s' /\ Py.is_space c = false.
Proof.
  induction s as [|c s IH]; [by left|]. cbn [Py.lstrip].
  destruct (Py.is_space c) eqn:E; [assumption|]. right. by exists c, s.
Qed.

Lemma strip_idempotent (s : string) : Py.strip (Py.strip s) = Py.strip s.
Proof.
  unfold Py.strip.
  destruct (lstrip_head s) as [->|(c & s' & -> & Hc)]; [reflexivity|].
  rewrite (rstrip_cons c s' Hc). cbn [Py.lstrip]. rewrite Hc.
  rewrite (rstrip_cons c _ Hc). by rewrite rstrip_idempotent.
Qed.

Lemma first_track_name_found (track : list track_msg) (title : string) :
  first_track_name track = Some title ->
  exists before name after,
    track = before ++ track_name name :: after
    /\ Forall (fun m => m = other_track_msg) before
    /\ title = Py.strip name.
Proof.
  induction track as [|[name|] track IH]; [discriminate| |].
  - intros [= <-]. by exists [], name, track.
  - intros H. destruct (IH H) as (before & name & after & -> & Hb & ->).
    exists (other_track_msg :: before), name, after.
    split; [reflexivity|]. split; [by constructor | reflexivity].
Qed.

(** X15.  The title is the name of the first 'track_name' message of the
    first track, with the white space at its two ends removed: messages
    after it and the other tracks play no part, and stripping the title
    again changes nothing. *)
Theorem title_is_first_track_name (tracks : list (list track_msg)) (title : string) :
  _get_title_from_midi tracks = Some title ->
  Py.strip title = title
  /\ exists track others before name after,
       tracks = track :: others
       /\ track = before ++ track_name name :: after
       /\ Forall (fun m => m = other_track_msg) before
       /\ title = Py.strip name.
Proof.
  destruct tracks as [|track others]; [discriminate|]. cbn [_get_title_from_midi].
  intros H. destruct (first_track_name_found _ _ H) as (before & name & after & -> & Hb & ->).
  split; [apply strip_idempotent|].
  by exists (before ++ track_name name :: after), others, before, name, after.
Qed.

Lemma title_is_first_track_name_witness : Py.strip "My Song" = "My Song".
Proof.
  refine (proj1 (title_is_first_track_name
                   [ [other_track_msg; track_name "  My Song "; track_name "B"];
                     [track_name "C"] ] "My Song" _)).
  vm_compute; reflexivity.
Defined.

(** ** The check utilities *)

(** X16.  The two check utilities exit with status 1 exactly when the file
    does not exist or cannot be opened.  Otherwise they report the number
    of items that the scan finds in the messages of the file, the chord
    scan being run with the resolution of the file itself: the branch of
    the scans for a file that cannot be opened is never taken from here. *)
Theorem check_utilities_outcome
    {chord_symbol : Type} (harmony_ChordSymbol : string -> option chord_symbol)
    (harmony_NoChord : chord_symbol) (truthy : chord_symbol -> bool)
    (path_exists : string -> bool) (mido_MidiFile : file_system) (file_path : string) :
  let chords_outcome :=
    check_chords_in_file harmony_ChordSymbol harmony_NoChord truthy
      path_exists mido_MidiFile file_path in
  let rehe_outcome := check_rehe_in_file path_exists mido_MidiFile file_path in
  (path_exists file_path = false \/ mido_MidiFile file_path = None ->
     chords_outcome = SysExit 1 /\ rehe_outcome = SysExit 1)
  /\ (forall mf, path_exists file_path = true -> mido_MidiFile file_path = Some mf ->
        chords_outcome
        = Reported (length (chord_loop harmony_ChordSymbol harmony_NoChord truthy
                              (ticks_per_beat mf) (0, []) (merge_tracks mf)).2)
        /\ rehe_outcome = Reported (length (rehe_loop (0, []) (merge_tracks mf)).2)
        /\ (ticks_per_beat mf = 0 -> chords_outcome = Reported 0)).
Proof.
  intros chords_outcome rehe_outcome.
  unfold chords_outcome, rehe_outcome, check_chords_in_file, check_rehe_in_file. split.
  - intros [->| ->]; [done|]. by destruct (negb (path_exists file_path)).
  - intros mf He Ho. rewrite He. cbn [negb].
    unfold _parse_chords_from_midi, _parse_rehe_from_midi. rewrite Ho.
    split; [reflexivity|]. split; [reflexivity|].
    intros ->. by rewrite chord_loop_zero_resolution.
Qed.

Lemma check_utilities_outcome_witness :
  check_chords_in_file only_Cmaj7 "N.C." (fun _ => true)
    (fun _ => true) no_files "broken.mid" = SysExit 1.
Proof.
  refine (proj1 (proj1 (check_utilities_outcome only_Cmaj7 "N.C." (fun _ => true)
                          (fun _ => true) no_files "broken.mid") _)).
  right. reflexivity.
Defined.

(** ** The decoder and the scan, once more *)

(** X17.  A three-byte sequence decodes to the figure of its first two
    bytes, followed by "/" and the bass name exactly when the bass byte
    decodes to a note name other than the root's; in every other case (the
    bass byte does not decode, or names the root) the figure is that of
    the first two bytes. *)
Theorem bass_suffix_exactly_when_distinct (cr ct bn : Z) (figure : string) :
  _parse_xf_chord_sysex [cr; ct; bn] = Some figure ->
  figure <> "N.C." ->
  exists base root,
    _parse_xf_chord_sysex [cr; ct] = Some base
    /\ parse_note_byte cr = Some root
    /\ has_slash base = false
    /\ (((parse_note_byte bn = None \/ parse_note_byte bn = Some root) /\ figure = base)
        \/ (exists bass, parse_note_byte bn = Some bass /\ bass <> root
              /\ figure = base +:+ "/" +:+ bass /\ has_slash figure = true)).
Proof.
  rewrite decode_three, decode_two. unfold decode_fields.
  destruct (XF_CHORD_TYPES !! ct) as [t|] eqn:Et; [|discriminate].
  destruct (String.eqb t "N.C."); [intros [= <-]; done|].
  destruct (parse_note_byte cr) as [r|] eqn:Er; [|discriminate].
  rewrite parse_note_byte_127. intros H _. exists (r +:+ t), r.
  split; [reflexivity|]. split; [reflexivity|].
  assert (has_slash (r +:+ t) = false) as Hbase.
  { pose proof (parse_note_byte_no_slash _ _ Er) as H1.
    pose proof (XF_CHORD_TYPES_no_slash _ _ Et) as H2.
    unfold has_slash in *. by rewrite contains_char_app, H1, H2. }
  split; [assumption|].
  destruct (parse_note_byte bn) as [b|] eqn:Eb.
  - destruct (String.eqb_spec r b) as [<-|Hne]; cbn [negb] in H; injection H as <-.
    + left. split; [by right | reflexivity].
    + right. exists b. split; [reflexivity|]. split; [congruence|].
      split; [by rewrite string_app_assoc|].
      unfold has_slash. rewrite !contains_char_app. simpl. by rewrite !orb_true_r.
  - injection H as <-. left. split; [by left | reflexivity].
Qed.

Lemma bass_suffix_exactly_when_distinct_witness :
  exists base root,
    _parse_xf_chord_sysex [0x32; 0x02] = Some base
    /\ parse_note_byte 0x32 = Some root
    /\ has_slash base = false
    /\ (((parse_note_byte 0x45 = None \/ parse_note_byte 0x45 = Some root)
         /\ "Dmaj7/G#" = base)
        \/ (exists bass, parse_note_byte 0x45 = Some bass /\ bass <> root
              /\ "Dmaj7/G#" = base +:+ "/" +:+ bass /\ has_slash "Dmaj7/G#" = true)).
Proof.
  apply (bass_suffix_exactly_when_distinct 0x32 0x02 0x45 "Dmaj7/G#").
  - vm_compute; reflexivity.
  - discriminate.
Defined.



(** ** The lead sheet and the command line *)

Section LeadSheetProperties.

Context {chord_symbol score : Type}.
Variable harmony_ChordSymbol : string -> option chord_symbol.
Variable harmony_NoChord : chord_symbol.
Variable truthy : chord_symbol -> bool.
Variable mido_MidiFile : file_system.
Variable path_exists : string -> bool.
Variable tracks : MidiFile -> list (list track_msg).
Variable converter_parse : string -> option score.
Variable write_lead_sheet :
  score -> option string -> list (@placed_chord chord_symbol) -> list Note -> string
  -> result unit.

#[local] Abbreviation run_main :=
  (main harmony_ChordSymbol harmony_NoChord truthy mido_MidiFile path_exists
     tracks converter_parse write_lead_sheet).

(** X19.  Lead-sheet generation ends with status 1 when the input file
    cannot be opened or parsed, without running a scan.  Once the file is
    open, the chord scan cannot fail: the status is 1 if the melody scan
    raises (a division by a resolution 0) or the writing of the document
    raises, and 0 otherwise, the document being written from the notes of
    the melody scan and the chords of the chord scan, both at the
    resolution of the file. *)
Theorem lead_sheet_exit_status (input_file output_file : string) :
  let args := {| input := Some input_file; output := Some output_file;
                 check_chords := None; check_rehe := None |} in
  (mido_MidiFile input_file = None -> run_main args = 1)
  /\ (converter_parse input_file = None -> run_main args = 1)
  /\ (forall mf melody_score,
        mido_MidiFile input_file = Some mf ->
        converter_parse input_file = Some melody_score ->
        run_main args
        = match melody_of (ticks_per_beat mf) (merge_tracks mf) with
          | Raised => 1
          | Returned found =>
              match write_lead_sheet melody_score
                      (title_for_metadata (_get_title_from_midi (tracks mf)))
                      (chord_loop harmony_ChordSymbol harmony_NoChord truthy
                         (ticks_per_beat mf) (0, []) (merge_tracks mf)).2
                      found output_file with
              | Returned _ => 0
              | Raised => 1
              end
          end).
Proof.
  intros args. unfold main, run_lead_sheet_generation, create_lead_sheet. cbn [args
    check_chords check_rehe input output].
  split; [|split].
  - intros ->. reflexivity.
  - intros ->. by destruct (mido_MidiFile input_file).
  - intros mf melody_score Ho Hp. rewrite Ho, Hp.
    rewrite (parse_melody_opened _ _ _ _ Ho).
    unfold _parse_chords_from_midi. rewrite Ho.
    destruct (melody_of _ _) as [found|]; [|reflexivity].
    by destruct (write_lead_sheet _ _ _ _ _).
Qed.

(** X20.  The command line runs one action at most: a chord check if its
    option is given, whatever the other options are; else a rehearsal
    check if its option is given; else the generation, if both the input
    and the output are given; else nothing, with status 1.  A check ends
    with status 0 exactly when its file exists and can be opened. *)
Theorem command_line_dispatch (args : cli_args) :
  (forall file_path, check_chords args = Some file_path ->
     run_main args
     = if path_exists file_path && bool_decide (is_Some (mido_MidiFile file_path))
       then 0 else 1)
  /\ (forall file_path, check_chords args = None -> check_rehe args = Some file_path ->
        run_main args
        = if path_exists file_path && bool_decide (is_Some (mido_MidiFile file_path))
          then 0 else 1)
  /\ (check_chords args = None -> check_rehe args = None ->
        input args = None \/ output args = None -> run_main args = 1).
Proof.
  unfold main. split; [|split].
  - intros file_path ->. unfold check_chords_in_file, _parse_chords_from_midi.
    destruct (path_exists file_path); [|reflexivity]. cbn [negb andb].
    by destruct (mido_MidiFile file_path).
  - intros file_path -> ->. unfold check_rehe_in_file, _parse_rehe_from_midi.
    destruct (path_exists file_path); [|reflexivity]. cbn [negb andb].
    by destruct (mido_MidiFile file_path).
  - intros -> -> [-> | ->]; [reflexivity|]. by destruct (input args).
Qed.

End LeadSheetProperties.

Lemma lead_sheet_exit_status_witness :
  main only_Cmaj7 "N.C." (fun _ => true) no_files (fun _ => true)
    (fun _ => []) (fun _ : string => Some tt)
    (fun _ _ _ _ _ => Returned tt)
    {| input := Some "in.mid"; output := Some "out.musicxml";
       check_chords := None; check_rehe := None |}
  = 1.
Proof.
  refine (proj1 (lead_sheet_exit_status only_Cmaj7 "N.C." (fun _ => true) no_files
                   (fun _ => true) (fun _ => []) (fun _ : string => Some tt)
                   (fun _ _ _ _ _ => Returned tt) "in.mid" "out.musicxml") _).
  reflexivity.
Defined.

Lemma command_line_dispatch_witness :
  main only_Cmaj7 "N.C." (fun _ => true) no_files (fun _ => true)
    (fun _ => []) (fun _ : string => Some tt)
    (fun _ _ _ _ _ => Returned tt)
    {| input := Some "in.mid"; output := None;
       check_chords := None; check_rehe := None |}
  = 1.
Proof.
  refine (proj2 (proj2 (command_line_dispatch only_Cmaj7 "N.C." (fun _ => true) no_files
                          (fun _ => true) (fun _ => []) (fun _ : string => Some tt)
                          (fun _ _ _ _ _ => Returned tt)
                          {| input := Some "in.mid"; output := None;
                             check_chords := None; check_rehe := None |})) _ _ _).
  - reflexivity.
  - reflexivity.
  - right. reflexivity.
Defined.
